(** * wowframeadj: the layout-local.txt parser, serializer and override merger

    A shallow embedding of [main.py].  Python values are modelled as follows:
    - [str] is [string]; a character is a code point below 256;
    - [int] is [Z] (arbitrary precision);
    - [float] is an IEEE 754 binary64 number, [spec_float] with precision 53
      and maximal exponent 1024;
    - a [dict] with [str] keys is a [gmap string _]: nothing in the program
      observes the insertion order of a dict, every iteration whose order
      matters goes through [sorted];
    - [sys.exit] after a [print] is an error value carrying what was printed.

    The built-ins the program calls ([str.strip], [str.split], [str.lower],
    [int], [float], [str], [==], truth testing, [sorted]) are defined first,
    then the functions of [main.py] under their own names. *)

From Stdlib Require Import ZArith QArith Qpower Ascii String SpecFloat.
From stdpp Require Import base gmap strings list sorting pretty.

Local Open Scope Z_scope.

(** ** Characters *)

(** [str.isspace] on one character: the white space [str.strip] removes. *)
Definition is_space (c : ascii) : bool :=
  let n := N_of_ascii c in
  ((9 <=? n) && (n <=? 13) || (28 <=? n) && (n <=? 32)
   || (n =? 133) || (n =? 160))%N.

(** The white space [int] and [float] skip around a number.  Both leave code
    points below 127 as they are and then skip the C white space only, so the
    separators 28 to 31 are not skipped, although [str.strip] removes them. *)
Definition is_num_space (c : ascii) : bool :=
  let n := N_of_ascii c in
  ((9 <=? n) && (n <=? 13) || (n =? 32) || (n =? 133) || (n =? 160))%N.

(** A line break of a text file read in universal-newline mode. *)
Definition is_newline (c : ascii) : bool :=
  let n := N_of_ascii c in ((n =? 10) || (n =? 13))%N.

Definition digit_of (c : ascii) : option N :=
  let n := N_of_ascii c in
  if ((48 <=? n) && (n <=? 57))%N then Some (n - 48)%N else None.

Definition is_digit (c : ascii) : bool :=
  match digit_of c with Some _ => true | None => false end.

(** [str.lower] on one character. *)
Definition lower_char (c : ascii) : ascii :=
  let n := N_of_ascii c in
  if ((65 <=? n) && (n <=? 90)
      || (192 <=? n) && (n <=? 222) && negb (n =? 215))%N
  then ascii_of_N (n + 32) else c.

(** ** Strings *)

Definition LF : ascii := "010"%char.

Fixpoint lower (s : string) : string :=
  match s with
  | EmptyString => EmptyString
  | String c r => String (lower_char c) (lower r)
  end.

Fixpoint lstrip_by (p : ascii → bool) (s : string) : string :=
  match s with
  | EmptyString => EmptyString
  | String c r => if p c then lstrip_by p r else s
  end.

Fixpoint rstrip_by (p : ascii → bool) (s : string) : string :=
  match s with
  | EmptyString => EmptyString
  | String c r =>
      match rstrip_by p r with
      | EmptyString => if p c then EmptyString else String c EmptyString
      | r' => String c r'
      end
  end.

Definition strip_by (p : ascii → bool) (s : string) : string :=
  lstrip_by p (rstrip_by p s).

(** [s.strip()] *)
Definition strip (s : string) : string := strip_by is_space s.

(** [c in s] *)
Fixpoint contains (c : ascii) (s : string) : bool :=
  match s with
  | EmptyString => false
  | String a r => if decide (a = c) then true else contains c r
  end.

(** [s.split(sep, 1)] for a string that contains [sep]: the text before the
    first [sep] and the text after it. *)
Fixpoint split_once (sep : ascii) (s : string) : string * string :=
  match s with
  | EmptyString => (EmptyString, EmptyString)
  | String a r =>
      if decide (a = sep) then (EmptyString, r)
      else let '(k, v) := split_once sep r in (String a k, v)
  end.

(** The lines of a text, as iterating over the open file yields them, without
    their line ends. *)
Fixpoint split_lines (s : string) : list string :=
  match s with
  | EmptyString => [EmptyString]
  | String c r =>
      if is_newline c then EmptyString :: split_lines r
      else match split_lines r with
           | l :: ls => String c l :: ls
           | [] => [String c EmptyString]
           end
  end.

(** [sep.join(ls)] *)
Definition join (sep : string) (ls : list string) : string :=
  String.concat sep ls.

(** ** Values *)

Definition float := spec_float.

(** What [auto_cast] returns: an [int], a [float] or a [str]. *)
Inductive Value :=
  | PyInt (z : Z)
  | PyFloat (f : float)
  | PyStr (s : string).

Global Instance spec_float_eq_dec : EqDecision spec_float.
Proof. solve_decision. Defined.
Global Instance Value_eq_dec : EqDecision Value.
Proof. solve_decision. Defined.

(** ** [int(s)] *)

(** A digit part, [digit (["_"] digit)*], read from the left; [prev] tells
    whether the previous character was a digit, so that an underscore is
    accepted between two digits only. *)
Fixpoint digitpart (prev : bool) (acc : N) (s : string) : option N :=
  match s with
  | EmptyString => if prev then Some acc else None
  | String c r =>
      match digit_of c with
      | Some d => digitpart true (10 * acc + d)%N r
      | None =>
          if decide (c = "_"%char) then
            if prev then digitpart false acc r else None
          else None
      end
  end.

(** An optional sign: whether it is a minus, and what follows it. *)
Definition split_sign (s : string) : bool * string :=
  match s with
  | String "-" r => (true, r)
  | String "+" r => (false, r)
  | _ => (false, s)
  end.

(** [int(s)] in base 10; [None] stands for [ValueError]. *)
Definition int_of_string (s : string) : option Z :=
  let '(neg, body) := split_sign (strip_by is_num_space s) in
  n ← digitpart false 0%N body;
  Some (if neg then - Z.of_N n else Z.of_N n).

(** ** [float(s)] *)

Definition prec : Z := 53.
Definition emax : Z := 1024.

(** The binary64 number nearest to [d * 10 ^ e] (ties to even), with sign
    [neg]; a magnitude too large gives an infinity, one too small a zero. *)
Definition float_of_decimal (neg : bool) (d : N) (e : Z) : float :=
  match d with
  | N0 => S754_zero neg
  | Npos p =>
      if 0 <=? e then binary_round prec emax neg (p * Z.to_pos (10 ^ e)) 0
      else
        let '(q, e', l) :=
          SFdiv_core_binary prec emax (Zpos p) 0 (10 ^ (- e)) 0 in
        binary_round_aux prec emax neg q e' l
  end.

(** Underscores are accepted between two digits only, and are dropped. *)
Fixpoint remove_underscores (prev : ascii) (s : string) : option string :=
  match s with
  | EmptyString => if decide (prev = "_"%char) then None else Some EmptyString
  | String c r =>
      if decide (c = "_"%char) then
        if is_digit prev then remove_underscores c r else None
      else if decide (prev = "_"%char) then
        if is_digit c then String c <$> remove_underscores c r else None
      else String c <$> remove_underscores c r
  end.

(** The leading digits of [s]: their value after [acc], their number after
    [cnt], and what follows them. *)
Fixpoint take_digits (acc : N) (cnt : nat) (s : string) : N * nat * string :=
  match s with
  | EmptyString => (acc, cnt, s)
  | String c r =>
      match digit_of c with
      | Some d => take_digits (10 * acc + d)%N (S cnt) r
      | None => (acc, cnt, s)
      end
  end.

(** An exponent, [("e" | "E") ["+" | "-"] digit+], or nothing. *)
Definition parse_exponent (s : string) : option Z :=
  match s with
  | EmptyString => Some 0
  | String c r =>
      if decide (c = "e"%char ∨ c = "E"%char) then
        let '(neg, r') := split_sign r in
        match take_digits 0%N 0%nat r' with
        | (x, S _, EmptyString) => Some (if neg then - Z.of_N x else Z.of_N x)
        | _ => None
        end
      else None
  end.

(** A decimal number, [digit* ["." digit*] [exponent]] with a digit before the
    exponent, as [d * 10 ^ e]. *)
Definition parse_decimal (s : string) : option (N * Z) :=
  let '(i, ni, r) := take_digits 0%N 0%nat s in
  let '(d, nf, r') :=
    match r with
    | String "." t => let '(d, n, t') := take_digits i 0%nat t in (d, n, t')
    | _ => (i, 0%nat, r)
    end in
  match (ni + nf)%nat with
  | O => None
  | S _ => x ← parse_exponent r'; Some (d, x - Z.of_nat nf)
  end.

(** ["inf"], ["infinity"] and ["nan"], in any case. *)
Definition parse_inf_or_nan (neg : bool) (s : string) : option float :=
  let t := lower s in
  if decide (t = "inf" ∨ t = "infinity") then Some (S754_infinity neg)
  else if decide (t = "nan") then Some S754_nan
  else None.

(** [float(s)]; [None] stands for [ValueError]. *)
Definition float_of_string (s : string) : option float :=
  u ← remove_underscores "000"%char (strip_by is_num_space s);
  let '(neg, body) := split_sign u in
  match parse_decimal body with
  | Some (d, e) => Some (float_of_decimal neg d e)
  | None => parse_inf_or_nan neg body
  end.

(** ** [str(x)] *)

(** The number of decimal digits of [n] ([0] has none). *)
Definition ndigits (n : N) : nat :=
  match n with N0 => O | _ => String.length (pretty n) end.

(** Ten to the [k], for the scalings below. *)
Definition pow10 (k : Z) : Z := 10 ^ k.

(** [m * 2 ^ e] as a fraction. *)
Definition fraction_of (m : positive) (e : Z) : Z * Z :=
  if 0 <=? e then (Zpos m * 2 ^ e, 1) else (Zpos m, 2 ^ (- e)).

(** The position of the decimal point of [num / den > 0]: the [d] with
    [10 ^ (d - 1) <= num / den < 10 ^ d], searched upwards from [d]. *)
Fixpoint decimal_point (fuel : nat) (num den d : Z) : Z :=
  match fuel with
  | O => d
  | S fuel' =>
      if (if 0 <=? d then num <? den * pow10 d else num * pow10 (- d) <? den)
      then d else decimal_point fuel' num den (d + 1)
  end.

(** A position not above the decimal point of [m * 2 ^ e], at most two below
    it: the number lies between [2 ^ (b - 1)] and [2 ^ b], and [30103 / 100000]
    is the base-10 logarithm of 2 to nine places. *)
Definition decimal_point_below (m : positive) (e : Z) : Z :=
  let b := Zpos (digits2_pos m) + e in
  (b - 1) * 30103 / 100000 - 1.

(** [num / den] scaled by [10 ^ (- k)]: its integer part, the remainder and
    the divisor. *)
Definition scaled (num den k : Z) : Z * Z * Z :=
  let '(n, d) := if 0 <=? k then (num, den * pow10 k) else (num * pow10 (- k), den) in
  (n / d, n mod d, d).

(** The [n]-digit decimal that reads back as [f], if there is one: the
    nearest to [f] when both neighbours do. *)
Definition digits_candidate (f : float) (num den decpt : Z) (n : nat)
  : option (N * Z) :=
  let k := decpt - Z.of_nat n in
  let '(lo, rem, d) := scaled num den k in
  let reads c := bool_decide (float_of_decimal false (Z.to_N c) k = f) in
  if rem =? 0 then Some (Z.to_N lo, k)
  else
    match reads lo, reads (lo + 1) with
    | true, true =>
        match 2 * rem ?= d with
        | Lt => Some (Z.to_N lo, k)
        | Gt => Some (Z.to_N (lo + 1), k)
        | Eq => Some (Z.to_N (if Z.even lo then lo else lo + 1), k)
        end
    | true, false => Some (Z.to_N lo, k)
    | false, true => Some (Z.to_N (lo + 1), k)
    | false, false => None
    end.

(** The first success of [digits_candidate] from [n] digits on. *)
Fixpoint shortest_from (fuel : nat) (f : float) (num den decpt : Z) (n : nat)
  : option (N * Z) :=
  match fuel with
  | O => None
  | S fuel' =>
      match digits_candidate f num den decpt n with
      | Some r => Some r
      | None => shortest_from fuel' f num den decpt (S n)
      end
  end.

(** Trailing zeros move from the digits into the exponent. *)
Fixpoint drop_zeros (fuel : nat) (d : N) (k : Z) : N * Z :=
  match fuel with
  | O => (d, k)
  | S fuel' =>
      if ((d mod 10 =? 0) && negb (d =? 0))%N
      then drop_zeros fuel' (d / 10)%N (k + 1) else (d, k)
  end.

(** The shortest digits that read back as the positive number
    [m * 2 ^ e], with the position of the decimal point: the number is
    [0.digits * 10 ^ decpt].  Seventeen digits always suffice; should none be
    found the seventeen nearest digits are taken. *)
Definition shortest_digits (m : positive) (e : Z) : N * Z :=
  let f := S754_finite false m e in
  let '(num, den) := fraction_of m e in
  let decpt := decimal_point 4 num den (decimal_point_below m e) in
  let '(d, k) :=
    match shortest_from 17 f num den decpt 1 with
    | Some r => r
    | None =>
        let '(lo, rem, dv) := scaled num den (decpt - 17) in
        (Z.to_N (if 2 * rem <? dv then lo else lo + 1), decpt - 17)
    end in
  let '(d', k') := drop_zeros 18 d k in
  (d', Z.of_nat (ndigits d') + k').

Fixpoint zeros (n : nat) : string :=
  match n with O => EmptyString | S n' => String "0" (zeros n') end.

Fixpoint take_str (n : nat) (s : string) : string :=
  match n, s with
  | S n', String c r => String c (take_str n' r)
  | _, _ => EmptyString
  end.

Fixpoint drop_str (n : nat) (s : string) : string :=
  match n, s with
  | S n', String c r => drop_str n' r
  | _, _ => s
  end.

(** The digits laid out as [repr] does: with an exponent of at least two
    digits when the decimal point is more than 16 places to the right or
    more than 3 to the left of the first digit, plainly otherwise, and then
    never without a fractional part. *)
Definition format_repr (d : N) (decpt : Z) : string :=
  let ds := pretty d in
  let nd := Z.of_nat (String.length ds) in
  if (decpt <=? -4) || (16 <? decpt) then
    let x := decpt - 1 in
    let ax := pretty (Z.abs x) in
    take_str 1 ds
      +:+ (if 1 <? nd then "." +:+ drop_str 1 ds else "")
      +:+ "e" +:+ (if x <? 0 then "-" else "+")
      +:+ (if Z.abs x <? 10 then "0" else "") +:+ ax
  else if decpt <=? 0 then "0." +:+ zeros (Z.to_nat (- decpt)) +:+ ds
  else if nd <=? decpt then ds +:+ zeros (Z.to_nat (decpt - nd)) +:+ ".0"
  else take_str (Z.to_nat decpt) ds +:+ "." +:+ drop_str (Z.to_nat decpt) ds.

(** [repr(f)], which is also [str(f)]. *)
Definition float_repr (f : float) : string :=
  match f with
  | S754_nan => "nan"
  | S754_infinity s => if s then "-inf" else "inf"
  | S754_zero s => if s then "-0.0" else "0.0"
  | S754_finite s m e =>
      let '(d, decpt) := shortest_digits m e in
      (if s then "-" else "") +:+ format_repr d decpt
  end.

(** [str(v)], what an f-string puts for [{v}]. *)
Definition py_str (v : Value) : string :=
  match v with
  | PyInt z => pretty z
  | PyFloat f => float_repr f
  | PyStr s => s
  end.

(** ** [==] and truth *)

(** [f == z] for a [float] and an [int]: the two numbers are compared
    exactly. *)
Definition float_eq_int (f : float) (z : Z) : bool :=
  match f with
  | S754_zero _ => z =? 0
  | S754_finite s m e =>
      let v := if s then Zneg m else Zpos m in
      if 0 <=? e then z =? v * 2 ^ e else z * 2 ^ (- e) =? v
  | _ => false
  end.

(** [a == b] *)
Definition py_eq (a b : Value) : bool :=
  match a, b with
  | PyInt x, PyInt y => x =? y
  | PyInt x, PyFloat f | PyFloat f, PyInt x => float_eq_int f x
  | PyFloat f, PyFloat g => SFeqb f g
  | PyStr s, PyStr t => bool_decide (s = t)
  | _, _ => false
  end.

(** The truth value of [v]: zero and the empty string are false. *)
Definition truthy (v : Value) : bool :=
  match v with
  | PyInt z => negb (z =? 0)
  | PyFloat (S754_zero _) => false
  | PyFloat _ => true
  | PyStr s => negb (bool_decide (s = ""))
  end.

(** * The program *)

Abbreviation Frame := (gmap string Value).

Definition VALID_KEYS : list string :=
  ["Frame"; "FrameLevel"; "Anchor"; "X"; "Y"; "W"; "H"].
Definition VALID_KEYS_LOWER : list string := lower <$> VALID_KEYS.

Definition auto_cast (value : string) : Value :=
  match int_of_string value with
  | Some z => PyInt z
  | None =>
      match float_of_string value with
      | Some f => PyFloat f
      | None => PyStr (strip value)
      end
  end.

(** [None] is the pair [(None, None)] of a line without a colon. *)
Definition parse_kv_line (line : string) : option (string * Value) :=
  if contains ":" line then
    let '(key, value) := split_once ":" line in
    Some (strip key, auto_cast (strip value))
  else None.

(** [[line.strip() for line in f if line.strip()]] on the text of the file. *)
Definition read_lines (text : string) : list string :=
  filter (λ line, line ≠ "") (strip <$> split_lines text).

(** The body of the [for] loop of [get_frames]: a line with a colon and a
    key that is not empty is stored in [frame_data]. *)
Definition add_line (frame_data : Frame) (line : string) : Frame :=
  match parse_kv_line line with
  | Some (key, value) =>
      if decide (key = "") then frame_data else <[key := value]> frame_data
  | None => frame_data
  end.

(** The body of the [while] loop of [get_frames]: the dict built from the
    seven lines at [index].  The loop guard keeps [index + offset] in range,
    so the default of [nth] is never read. *)
Definition read_block (lines : list string) (index : nat) : Frame :=
  foldl (λ frame_data offset, add_line frame_data (nth (index + offset) lines ""))
        ∅ (seq 0 7).

(** The [while] loop of [get_frames]; [None] when [fuel] runs out before the
    guard fails. *)
Fixpoint frames_loop (fuel : nat) (lines : list string) (index : nat)
    (frames : list Frame) : option (list Frame) :=
  if decide (index + 6 < length lines)%nat then
    match fuel with
    | O => None
    | S fuel' =>
        frames_loop fuel' lines (index + 7) (frames ++ [read_block lines index])
    end
  else Some frames.

(** [get_frames], on the text of the file at [path]. *)
Definition get_frames (text : string) : option (list Frame * string) :=
  let lines := read_lines text in
  match lines with
  | [] => Some ([], "")
  | version_header :: _ =>
      frames ← frames_loop (length lines) lines 1 [];
      Some (frames, version_header)
  end.

(** [sorted(k for k in frame.keys() if k != "Frame")] *)
Definition other_keys (frame : Frame) : list string :=
  merge_sort String.le (filter (λ k, k ≠ "Frame") (map_to_list frame).*1).

(** [f"{key}: {value}"] for [value = frame[key]]; [key] is a key of
    [frame], so the default is never used. *)
Definition field_line (frame : Frame) (key : string) : string :=
  key +:+ ": " +:+ from_option py_str "" (frame !! key).

(** What the loop body of [serialize_frames] appends for one frame. *)
Definition frame_lines (frame : Frame) : list string :=
  ("Frame: " +:+ py_str (default (PyStr "") (frame !! "Frame")))
  :: (field_line frame <$> other_keys frame).

(** The list [output] of [serialize_frames] when its loop ends. *)
Definition output_lines (frames : list Frame) (version_header : string)
  : list string :=
  version_header :: concat (frame_lines <$> frames).

Definition serialize_frames (frames : list Frame) (version_header : string)
  : string :=
  join (String LF "") (output_lines frames version_header).

(** How the program ends when it does not return: what was printed before
    [sys.exit(1)], or the exception that was left uncaught. *)
Inductive Exit :=
  | InvalidSetArgument (token : string)
  | InvalidKey (key : string)
  | FrameRequired
  | FrameNotFound (target_name : Value)
  | StopIteration.

Fixpoint parse_overrides_loop (pairs : list string) (overrides : Frame)
  : Exit + Frame :=
  match pairs with
  | [] => inr overrides
  | token :: rest =>
      if contains "=" token then
        let '(key, value) := split_once "=" token in
        let key := strip key in
        if decide (lower key ∈ VALID_KEYS_LOWER) then
          match list_find (λ vk, lower vk = lower key) VALID_KEYS with
          | Some (_, proper_key) =>
              parse_overrides_loop rest
                (<[proper_key := auto_cast (strip value)]> overrides)
          | None => inl StopIteration
          end
        else inl (InvalidKey key)
      else inl (InvalidSetArgument token)
  end.

Definition parse_overrides (pairs : list string) : Exit + Frame :=
  parse_overrides_loop pairs ∅.

(** The inner loop of [apply_overrides]: every item of [overrides] but
    ["Frame"] is stored in [frame]. *)
Definition update_frame (frame overrides : Frame) : Frame :=
  map_fold (λ key value frame,
              if decide (key = "Frame") then frame else <[key := value]> frame)
           frame overrides.

(** [frame.get("Frame") == target_name]; a missing key gives [None], which
    equals no [target_name]. *)
Definition names_frame (target_name : Value) (frame : Frame) : bool :=
  match frame !! "Frame" with
  | Some v => py_eq v target_name
  | None => false
  end.

(** The outer loop of [apply_overrides]: the frames after the first match was
    updated, or [None] when the loop ends without a match. *)
Fixpoint apply_loop (frames : list Frame) (target_name : Value)
    (overrides : Frame) : option (list Frame) :=
  match frames with
  | [] => None
  | frame :: rest =>
      if names_frame target_name frame
      then Some (update_frame frame overrides :: rest)
      else (frame ::.) <$> apply_loop rest target_name overrides
  end.

(** [apply_overrides]: the frames as the call leaves them, and how the
    program exits if it does. *)
Definition apply_overrides (frames : list Frame) (overrides : Frame)
  : list Frame * option Exit :=
  match overrides !! "Frame" with
  | None => (frames, Some FrameRequired)
  | Some target_name =>
      if truthy target_name then
        match apply_loop frames target_name overrides with
        | Some frames' => (frames', None)
        | None => (frames, Some (FrameNotFound target_name))
        end
      else (frames, Some FrameRequired)
  end.

(** ** [print_frame_summary] *)

(** [c * n] *)
Fixpoint repeat_char (c : ascii) (n : nat) : string :=
  match n with
  | O => EmptyString
  | S n' => String c (repeat_char c n')
  end.

(** [s.ljust(width)] *)
Definition ljust (s : string) (width : nat) : string :=
  s +:+ repeat_char " " (width - String.length s).

(** [sorted({key for frame in frames for key in frame.keys()
    if key != "Frame"})] *)
Definition summary_keys (frames : list Frame) : list string :=
  merge_sort String.le
    (elements (⋃ (dom <$> frames) ∖ {["Frame"]} : gset string)).

(** [str(frame.get(key, ""))] *)
Definition summary_cell (frame : Frame) (key : string) : string :=
  py_str (default (PyStr "") (frame !! key)).

(** The row of [frame] under the header ["Frame" :: keys]. *)
Definition summary_row (keys : list string) (frame : Frame) : list string :=
  summary_cell frame "Frame" :: (summary_cell frame <$> keys).

(** [max(len(row[i]) for row in table)]; every row of the table is as long
    as the header, so the default of [nth] is never read. *)
Definition col_width (table : list (list string)) (i : nat) : nat :=
  max_list ((λ row, String.length (nth i row "")) <$> table).

(** [format_row] *)
Definition format_row (col_widths : list nat) (row : list string) : string :=
  join " | "
    ((λ i, ljust (nth i row "") (nth i col_widths 0%nat))
       <$> seq 0 (length row)).

(** [print_frame_summary]: the lines it prints. *)
Definition print_frame_summary (frames : list Frame) : list string :=
  let keys := summary_keys frames in
  let header := "Frame" :: keys in
  let rows := summary_row keys <$> frames in
  let col_widths := col_width (header :: rows) <$> seq 0 (length header) in
  format_row col_widths header
  :: join "-|-" (repeat_char "-" <$> col_widths)
  :: (format_row col_widths <$> rows).

(** ** [main] *)

(** How a run of [main] ends: with the message about the path, with one of
    the exits of [parse_overrides] and [apply_overrides], with the file
    written anew, or with the table printed. *)
Inductive Outcome :=
  | NotLayoutFile (path : string)
  | Exited (exit : Exit)
  | Written (content : string)
  | Printed (lines : list string).

(** [main].  [path] is [args.path]; [is_file] and [name] are what
    [file_path.is_file()] and [file_path.name] give for it; [text] is what
    the file holds; [set] is [args.set], [None] without [--set]. *)
Definition main (path : string) (is_file : bool) (name text : string)
    (set : option (list string)) : option Outcome :=
  if is_file && bool_decide (name = "layout-local.txt") then
    '(frames, version_header) ← get_frames text;
    match set with
    | Some ((_ :: _) as pairs) =>
        match parse_overrides pairs with
        | inl exit => Some (Exited exit)
        | inr overrides =>
            match apply_overrides frames overrides with
            | (_, Some exit) => Some (Exited exit)
            | (frames', None) =>
                Some (Written (serialize_frames frames' version_header
                               +:+ String LF ""))
            end
        end
    | _ => Some (Printed (print_frame_summary frames))
    end
  else Some (NotLayoutFile path).

(** * Notions used in the statements *)

(** Every character of [s] satisfies [p]. *)
Fixpoint str_forall (p : ascii → bool) (s : string) : bool :=
  match s with
  | EmptyString => true
  | String c r => p c && str_forall p r
  end.

(** No character to strip at the left end, at the right end. *)
Definition no_lead (p : ascii → bool) (s : string) : bool :=
  match s with EmptyString => true | String c _ => negb (p c) end.
Fixpoint no_trail (p : ascii → bool) (s : string) : bool :=
  match s with
  | EmptyString => true
  | String c r =>
      match r with EmptyString => negb (p c) | _ => no_trail p r end
  end.

(** The frame of a group of lines, and the frames of the first [n] groups of
    seven lines. *)
Definition block_frame (ls : list string) : Frame := foldl add_line ∅ ls.

Fixpoint blocks (n : nat) (ls : list string) : list Frame :=
  match n with
  | O => []
  | S n' => block_frame (take 7 ls) :: blocks n' (drop 7 ls)
  end.

(** The key part of a [key=value] token and the value it stands for. *)
Definition token_key (token : string) : string :=
  strip (split_once "=" token).1.
Definition token_value (token : string) : Value :=
  auto_cast (strip (split_once "=" token).2).

(** What [parse_overrides] prints for a token it refuses: a token without
    ["="], or with a key that is not, in lower case, one of [VALID_KEYS]. *)
Definition token_exit (token : string) : option Exit :=
  if contains "=" token then
    if decide (lower (token_key token) ∈ VALID_KEYS_LOWER) then None
    else Some (InvalidKey (token_key token))
  else Some (InvalidSetArgument token).

(** The rational number a finite [float] stands for. *)
Definition float_value (f : float) : option Q :=
  match f with
  | S754_zero _ => Some 0%Q
  | S754_finite s m e =>
      Some (inject_Z (if s then Zneg m else Zpos m) * inject_Z 2 ^ e)%Q
  | _ => None
  end.

(** The integer syntax in the words of the specification: base 10, an
    optional leading minus, no fractional part. *)
Definition spec_int_syntax (s : string) : bool :=
  match s with
  | String "-" r => negb (bool_decide (r = "")) && str_forall is_digit r
  | _ => negb (bool_decide (s = "")) && str_forall is_digit s
  end.



(** No line break in [s]. *)
Definition no_newline (s : string) : bool :=
  str_forall (λ c, negb (is_newline c)) s.

(** A string that [strip] leaves as it is and that fits on a line. *)
Definition wf_text (s : string) : Prop :=
  no_lead is_space s = true ∧ no_trail is_space s = true
  ∧ no_newline s = true.

(** A key as [get_frames] stores them: stripped, not empty, without a colon
    or a line break. *)
Definition wf_key (key : string) : Prop :=
  key ≠ "" ∧ wf_text key ∧ contains ":" key = false.

(** A value that [auto_cast] reads back from its printed form. *)
Definition wf_value (v : Value) : Prop :=
  wf_text (py_str v) ∧ auto_cast (py_str v) = v.

(** A float that [float] reads back from its [repr]. *)
Definition reads_back (v : Value) : Prop :=
  match v with
  | PyFloat f => float_of_string (float_repr f) = Some f
  | _ => True
  end.

(** A frame that fills a block of seven lines: a ["Frame"] value and six
    more fields. *)
Definition full_frame (frame : Frame) : Prop :=
  is_Some (frame !! "Frame") ∧ size frame = 7%nat.

(** The characters of the [repr] of a float. *)
Definition repr_char (c : ascii) : bool :=
  is_digit c || contains c ".e+-infa".

(** What holds of every field of a parsed frame: the key is well formed,
    and so is the value if it reads back. *)
Definition entry_ok (key : string) (v : Value) : Prop :=
  wf_key key ∧ (reads_back v → wf_value v).

(** * Properties *)

(** ** The block structure of [get_frames] *)

Lemma read_block_take lines index :
  (index + 7 ≤ length lines)%nat →
  read_block lines index = block_frame (take 7 (drop index lines)).
Proof.
  intros Hlen. unfold read_block, block_frame.
  assert (take 7 (drop index lines)
          = (λ offset, nth (index + offset) lines "") <$> seq 0 7) as ->.
  { apply list_eq. intros i. rewrite lookup_take, lookup_drop, list_lookup_fmap.
    destruct (decide (i < 7)%nat) as [Hi|Hi].
    - rewrite lookup_seq_lt by lia. simpl.
      destruct (lines !! (index + i)%nat) as [l|] eqn:Hl.
      + by rewrite (nth_lookup_Some _ _ _ _ Hl).
      + apply lookup_ge_None in Hl. lia.
    - by rewrite lookup_seq_ge by lia. }
  generalize (seq 0 7), (∅ : Frame). intros offsets.
  induction offsets as [|o offsets IH]; intros m; simpl; [done|apply IH].
Qed.

Lemma frames_loop_blocks fuel lines index frames :
  ((length lines - index) / 7 ≤ fuel)%nat →
  frames_loop fuel lines index frames
  = Some (frames ++ blocks ((length lines - index) / 7) (drop index lines)).
Proof.
  revert index frames.
  induction fuel as [|fuel IH]; intros index frames Hfuel; cbn [frames_loop].
  - case_decide as Hguard.
    + assert (1 ≤ (length lines - index) / 7)%nat; [|lia].
      apply Nat.div_le_lower_bound; lia.
    + rewrite Nat.div_small by lia. by rewrite app_nil_r.
  - case_decide as Hguard.
    + assert ((length lines - index) / 7
              = S ((length lines - (index + 7)) / 7))%nat as Hdiv.
      { replace (length lines - index)%nat
          with (1 * 7 + (length lines - (index + 7)))%nat by lia.
        rewrite Nat.div_add_l by lia. lia. }
      rewrite IH by lia. rewrite Hdiv. cbn [blocks].
      rewrite read_block_take by lia. rewrite drop_drop.
      by rewrite <-app_assoc.
    + rewrite Nat.div_small by lia. by rewrite app_nil_r.
Qed.

Lemma length_blocks n ls : length (blocks n ls) = n.
Proof. revert ls. induction n; intros; simpl; auto. Qed.

Lemma lookup_blocks n ls i :
  (i < n)%nat →
  blocks n ls !! i = Some (block_frame (take 7 (drop (7 * i) ls))).
Proof.
  revert ls i. induction n as [|n IH]; intros ls [|i] Hi; try lia; simpl.
  - done.
  - rewrite IH by lia. rewrite drop_drop. do 4 f_equal. lia.
Qed.

(** [get_frames] returns: the loop guard fails before the fuel runs out. *)
Lemma get_frames_blocks text :
  get_frames text
  = Some (match read_lines text with
          | [] => ([], "")
          | version_header :: rest =>
              (blocks (length rest / 7) rest, version_header)
          end).
Proof.
  unfold get_frames. destruct (read_lines text) as [|h rest] eqn:Hl; [done|].
  assert (length (h :: rest) - 1 = length rest)%nat as Hlen by (simpl; lia).
  rewrite frames_loop_blocks.
  - by rewrite Hlen.
  - rewrite Hlen. cbn [length].
    pose proof (Nat.Div0.div_le_upper_bound (length rest) 7 (length rest)).
    lia.
Qed.

(** ** Strings: concatenation, stripping, splitting *)

Section strings.
Implicit Types (s t u : string) (c : ascii) (p q : ascii → bool).

Lemma str_app_nil_l s : "" +:+ s = s.
Proof. reflexivity. Qed.
Lemma str_app_cons c s t : String c s +:+ t = String c (s +:+ t).
Proof. reflexivity. Qed.
Lemma str_app_assoc s t u : (s +:+ t) +:+ u = s +:+ t +:+ u.
Proof. induction s as [|c s IH]; [done|]. by rewrite !str_app_cons, IH. Qed.
Lemma str_app_eq_nil s t : s +:+ t = "" → s = "" ∧ t = "".
Proof. destruct s; [done|]. by rewrite str_app_cons. Qed.
Lemma str_length_app s t :
  String.length (s +:+ t) = (String.length s + String.length t)%nat.
Proof. induction s as [|c s IH]; [done|]. rewrite str_app_cons. simpl. lia. Qed.

Lemma str_forall_app p s t :
  str_forall p (s +:+ t) = str_forall p s && str_forall p t.
Proof.
  induction s as [|c s IH]; [done|].
  rewrite str_app_cons. simpl. by rewrite IH, andb_assoc.
Qed.
Lemma str_forall_impl p q s :
  (∀ c, p c = true → q c = true) →
  str_forall p s = true → str_forall q s = true.
Proof.
  intros Hpq. induction s as [|c s IH]; [done|]. simpl.
  rewrite !andb_true_iff. naive_solver.
Qed.
Lemma contains_false c s :
  contains c s = false ↔ str_forall (λ a, bool_decide (a ≠ c)) s = true.
Proof.
  induction s as [|a s IH]; [done|]. simpl.
  case_decide; case_bool_decide; naive_solver.
Qed.
Lemma contains_app c s t : contains c (s +:+ t) = contains c s || contains c t.
Proof.
  induction s as [|a s IH]; [done|]. rewrite str_app_cons. simpl.
  by case_decide.
Qed.

Lemma lstrip_by_no_lead p s : no_lead p s = true → lstrip_by p s = s.
Proof. destruct s as [|c s]; [done|]. simpl. by destruct (p c). Qed.
Lemma rstrip_by_no_trail p s : no_trail p s = true → rstrip_by p s = s.
Proof.
  induction s as [|c s IH]; [done|]. simpl.
  destruct s as [|c' s]; [by destruct (p c)|].
  intros H. rewrite (IH H). done.
Qed.
Lemma no_lead_lstrip_by p s : no_lead p (lstrip_by p s) = true.
Proof.
  induction s as [|c s IH]; [done|]. simpl.
  destruct (p c) eqn:Hc; [done|]. simpl. by rewrite Hc.
Qed.
Lemma no_trail_rstrip_by p s : no_trail p (rstrip_by p s) = true.
Proof.
  induction s as [|c s IH]; [done|]. simpl.
  destruct (rstrip_by p s) as [|c' r] eqn:Hr.
  - destruct (p c) eqn:Hc; [done|]. simpl. by rewrite Hc.
  - done.
Qed.
Lemma no_trail_lstrip_by p s :
  no_trail p s = true → no_trail p (lstrip_by p s) = true.
Proof.
  induction s as [|c s IH]; [done|]. simpl.
  destruct (p c) eqn:Hc; [|intros H; simpl; by rewrite Hc].
  destruct s as [|c' s]; [done|]. auto.
Qed.
Lemma rstrip_by_cons p c s :
  p c = false → rstrip_by p (String c s) = String c (rstrip_by p s).
Proof. intros Hc. simpl. rewrite Hc. by destruct (rstrip_by p s). Qed.
Lemma rstrip_by_app p s t :
  rstrip_by p t ≠ "" → rstrip_by p (s +:+ t) = s +:+ rstrip_by p t.
Proof.
  intros Ht. induction s as [|c s IH]; [done|].
  rewrite !str_app_cons. simpl. rewrite IH.
  destruct (s +:+ rstrip_by p t) eqn:Hst; [|done].
  by apply str_app_eq_nil in Hst as [_ ?].
Qed.

(** The two ends are stripped independently. *)
Lemma strip_by_comm p s : strip_by p s = rstrip_by p (lstrip_by p s).
Proof.
  unfold strip_by. induction s as [|c s IH]; [done|].
  simpl. destruct (p c) eqn:Hc.
  - rewrite <-IH. destruct (rstrip_by p s) eqn:Hr; [done|].
    simpl. by rewrite Hc.
  - rewrite (rstrip_by_cons _ _ _ Hc).
    destruct (rstrip_by p s) eqn:Hr; simpl; by rewrite Hc.
Qed.
Lemma strip_by_id p s :
  no_lead p s = true → no_trail p s = true → strip_by p s = s.
Proof.
  intros Hl Ht. unfold strip_by.
  by rewrite rstrip_by_no_trail, lstrip_by_no_lead.
Qed.
Lemma no_lead_strip_by p s : no_lead p (strip_by p s) = true.
Proof. apply no_lead_lstrip_by. Qed.
Lemma no_trail_strip_by p s : no_trail p (strip_by p s) = true.
Proof. apply no_trail_lstrip_by, no_trail_rstrip_by. Qed.
Lemma strip_by_idemp p s : strip_by p (strip_by p s) = strip_by p s.
Proof. apply strip_by_id; [apply no_lead_strip_by|apply no_trail_strip_by]. Qed.
Lemma strip_by_cons_true p c s : p c = true → strip_by p (String c s) = strip_by p s.
Proof. intros Hc. rewrite !strip_by_comm. simpl. by rewrite Hc. Qed.

(** Stripping and splitting keep the characters they do not drop. *)
Lemma str_forall_lstrip_by p q s :
  str_forall q s = true → str_forall q (lstrip_by p s) = true.
Proof.
  induction s as [|c s IH]; [done|]. simpl.
  destruct (p c); [|done]. rewrite andb_true_iff. naive_solver.
Qed.
Lemma str_forall_rstrip_by p q s :
  str_forall q s = true → str_forall q (rstrip_by p s) = true.
Proof.
  induction s as [|c s IH]; [done|]. simpl.
  rewrite andb_true_iff. intros [Hc Hs].
  destruct (rstrip_by p s) eqn:Hr.
  - destruct (p c); [done|]. simpl. by rewrite Hc.
  - simpl. rewrite Hc. by apply IH.
Qed.
Lemma str_forall_strip_by p q s :
  str_forall q s = true → str_forall q (strip_by p s) = true.
Proof. intros. by apply str_forall_lstrip_by, str_forall_rstrip_by. Qed.

Lemma split_once_app c s t :
  contains c s = false → split_once c (s +:+ String c t) = (s, t).
Proof.
  induction s as [|a s IH]; simpl.
  - intros _. by rewrite decide_True.
  - case_decide; [done|]. intros Hs. by rewrite IH.
Qed.
Lemma split_once_spec c s :
  contains c s = true →
  ∃ k v, split_once c s = (k, v) ∧ s = k +:+ String c v
         ∧ contains c k = false.
Proof.
  induction s as [|a s IH]; [done|]. simpl.
  case_decide as Ha.
  - subst. intros _. by exists "", s.
  - intros Hs. destruct (IH Hs) as (k & v & -> & -> & Hk).
    exists (String a k), v. simpl. by rewrite decide_False.
Qed.
End strings.

Lemma read_block_blocks lines i :
  (i < (length lines - 1) / 7)%nat →
  block_frame (take 7 (drop (7 * i) (drop 1 lines)))
  = read_block lines (1 + 7 * i).
Proof.
  intros Hi. rewrite read_block_take, drop_drop; [done|].
  pose proof (Nat.Div0.mul_div_le (length lines - 1) 7). nia.
Qed.

(** C2 (as amended): [get_frames] returns, and it takes the lines after the
    header in groups of exactly seven for as long as seven lines remain: from
    [n] lines after the header it builds [n / 7] frames, the frame [i] from
    the seven lines at [1 + 7 * i], and it drops the lines that remain, fewer
    than seven.  From a header, one full record and 8 further lines it builds
    two frames, the second one from 7 of the 8 lines, and drops 1 line. *)
Theorem get_frames_groups_of_seven text :
  let lines := read_lines text in
  let n := (length lines - 1)%nat in
  ∃ frames version_header,
    get_frames text = Some (frames, version_header)
    ∧ length frames = (n / 7)%nat
    ∧ (∀ i, (i < n / 7)%nat →
            frames !! i = Some (read_block lines (1 + 7 * i)))
    ∧ (n - 7 * length frames < 7)%nat
    ∧ (n = 15%nat → length frames = 2%nat ∧ (n - 7 * length frames = 1)%nat).
Proof.
  intros lines n. rewrite get_frames_blocks. subst n. fold lines.
  destruct lines as [|h rest] eqn:Hl.
  - exists [], "". split_and!; try done; simpl; lia.
  - exists (blocks (length rest / 7) rest), h.
    assert (length (h :: rest) - 1 = length rest)%nat as Hlen by (simpl; lia).
    rewrite Hlen, length_blocks. split; [done|]. split; [done|].
    split; [|split].
    + intros i Hi. rewrite lookup_blocks by done.
      rewrite <-read_block_blocks by (by rewrite Hlen). done.
    + pose proof (Nat.Div0.mul_div_le (length rest) 7).
      pose proof (Nat.mod_upper_bound (length rest) 7).
      pose proof (Nat.div_mod_eq (length rest) 7). lia.
    + intros ->. done.
Qed.

(** C2, the counterexample: a header, one full record and 8 further lines
    give a second frame, built from 7 of the 8 lines. *)
Lemma trailing_group_counterexample :
  (λ '(frames, _), (length frames, frames !! 1%nat))
    <$> get_frames
          (join (String LF "")
             ["v1"; "Frame: A"; "X: 1"; "Y: 2"; "W: 10"; "H: 20";
              "Anchor: TL"; "FrameLevel: 0"; "Frame: B"; "X: 3"; "Y: 4";
              "W: 5"; "H: 6"; "Anchor: TR"; "FrameLevel: 1"; "Frame: C"])
  = Some (2%nat,
          Some (list_to_map
                  [("Frame", PyStr "B"); ("X", PyInt 3); ("Y", PyInt 4);
                   ("W", PyInt 5); ("H", PyInt 6); ("Anchor", PyStr "TR");
                   ("FrameLevel", PyInt 1)])).
Proof. vm_compute. reflexivity. Qed.

(** ** Keys of parsed frames *)

Lemma add_line_keys frame_data line :
  map_Forall (λ key _, key ≠ "" ∧ strip key = key) frame_data →
  map_Forall (λ key _, key ≠ "" ∧ strip key = key) (add_line frame_data line).
Proof.
  intros Hm. unfold add_line, parse_kv_line.
  destruct (contains ":" line); [|done].
  destruct (split_once ":" line) as [key value].
  case_decide as Hkey; [done|].
  apply map_Forall_insert_2; [|done].
  split; [done|apply strip_by_idemp].
Qed.

Lemma block_frame_keys ls :
  map_Forall (λ key _, key ≠ "" ∧ strip key = key) (block_frame ls).
Proof.
  unfold block_frame.
  assert (map_Forall (λ key (_ : Value), key ≠ "" ∧ strip key = key) ∅) as H
    by apply map_Forall_empty.
  revert H. generalize (∅ : Frame).
  induction ls as [|l ls IH]; intros m Hm; simpl; [done|].
  apply IH. by apply add_line_keys.
Qed.

Lemma blocks_keys n ls :
  Forall (map_Forall (λ key _, key ≠ "" ∧ strip key = key)) (blocks n ls).
Proof.
  revert ls. induction n as [|n IH]; intros ls; simpl; constructor;
    [apply block_frame_keys|apply IH].
Qed.

(** C10: a line whose key part is empty or white space only adds no field,
    just as a line without a colon, so that [get_frames] returns frames whose
    keys are all non-empty and stripped. *)
Theorem blank_key_line_is_skipped :
  (∀ frame_data line,
     contains ":" line = true → strip (split_once ":" line).1 = "" →
     add_line frame_data line = frame_data)
  ∧ (∀ frame_data line,
       contains ":" line = false → add_line frame_data line = frame_data)
  ∧ (∀ frame_data, add_line frame_data ": 5" = frame_data)
  ∧ (∀ text, ∃ frames version_header,
       get_frames text = Some (frames, version_header)
       ∧ Forall (map_Forall (λ key _, key ≠ "" ∧ strip key = key)) frames).
Proof.
  split; [|split; [|split]].
  - intros m line Hc Hk. unfold add_line, parse_kv_line. rewrite Hc.
    destruct (split_once ":" line) as [key value]. simpl in Hk.
    by rewrite Hk, decide_True.
  - intros m line Hc. unfold add_line, parse_kv_line. by rewrite Hc.
  - done.
  - intros text. rewrite get_frames_blocks.
    destruct (read_lines text) as [|h rest]; eexists _, _; (split; [done|]).
    + constructor.
    + apply blocks_keys.
Qed.

(** ** The override merger *)

Lemma update_frame_union frame overrides :
  update_frame frame overrides = delete "Frame" overrides ∪ frame.
Proof.
  unfold update_frame.
  apply (map_fold_weak_ind (λ r m, r = delete "Frame" m ∪ frame)).
  - by rewrite delete_empty, (left_id_L ∅ (∪)).
  - intros key value m r Hkey ->. case_decide as Hk.
    + subst key. by rewrite delete_insert_eq.
    + rewrite delete_insert_ne by done. by rewrite insert_union_l.
Qed.

Lemma update_frame_lookup frame overrides key :
  update_frame frame overrides !! key
  = if decide (key = "Frame") then frame !! key
    else match overrides !! key with
         | Some value => Some value
         | None => frame !! key
         end.
Proof.
  rewrite update_frame_union, lookup_union. case_decide as Hk.
  - subst key. rewrite lookup_delete_eq. by destruct (frame !! "Frame").
  - rewrite lookup_delete_ne by done.
    by destruct (overrides !! key), (frame !! key).
Qed.

Lemma update_frame_idemp frame overrides :
  update_frame (update_frame frame overrides) overrides
  = update_frame frame overrides.
Proof.
  apply map_eq. intros key. rewrite !update_frame_lookup.
  case_decide; [done|]. by destruct (overrides !! key).
Qed.

Lemma names_frame_update target_name frame overrides :
  names_frame target_name (update_frame frame overrides)
  = names_frame target_name frame.
Proof. unfold names_frame. by rewrite update_frame_lookup, decide_True. Qed.

Lemma apply_loop_find frames target_name overrides :
  apply_loop frames target_name overrides
  = (λ '(i, frame), <[i := update_frame frame overrides]> frames)
      <$> list_find (λ frame, names_frame target_name frame = true) frames.
Proof.
  induction frames as [|frame rest IH]; [done|]. cbn [apply_loop list_find].
  destruct (names_frame target_name frame) eqn:Hn.
  - by rewrite decide_True.
  - rewrite decide_False by (by intros ?). rewrite IH.
    by destruct (list_find _ rest) as [[i fr]|].
Qed.

Lemma apply_loop_None frames target_name overrides :
  apply_loop frames target_name overrides = None
  ↔ Forall (λ frame, names_frame target_name frame = false) frames.
Proof.
  induction frames as [|frame rest IH]; simpl.
  - split; [constructor|done].
  - rewrite Forall_cons. destruct (names_frame target_name frame).
    + naive_solver.
    + rewrite fmap_None. naive_solver.
Qed.

Lemma apply_loop_idemp frames target_name overrides frames' :
  apply_loop frames target_name overrides = Some frames' →
  apply_loop frames' target_name overrides = Some frames'.
Proof.
  revert frames'.
  induction frames as [|frame rest IH]; intros frames'; simpl; [done|].
  destruct (names_frame target_name frame) eqn:Hn.
  - intros [= <-]. simpl.
    by rewrite names_frame_update, Hn, update_frame_idemp.
  - destruct (apply_loop rest target_name overrides) as [rest'|] eqn:Hr;
      [|done].
    intros [= <-]. simpl. by rewrite Hn, (IH rest').
Qed.

(** How [apply_overrides] ends, case by case. *)
Lemma apply_overrides_cases frames overrides :
  apply_overrides frames overrides
  = match overrides !! "Frame" with
    | None => (frames, Some FrameRequired)
    | Some target_name =>
        if truthy target_name then
          match list_find (λ frame, names_frame target_name frame = true)
                          frames with
          | Some (i, frame) =>
              (<[i := update_frame frame overrides]> frames, None)
          | None => (frames, Some (FrameNotFound target_name))
          end
        else (frames, Some FrameRequired)
    end.
Proof.
  unfold apply_overrides. destruct (overrides !! "Frame") as [t|]; [|done].
  destruct (truthy t); [|done]. rewrite apply_loop_find.
  by destruct (list_find _ frames) as [[i fr]|].
Qed.

(** C8: when the ["Frame"] value of the overrides names no frame,
    [apply_overrides] exits with the frame-not-found message and leaves every
    frame as it was. *)
Theorem apply_overrides_not_found frames overrides target_name :
  overrides !! "Frame" = Some target_name →
  truthy target_name = true →
  Forall (λ frame, names_frame target_name frame = false) frames →
  apply_overrides frames overrides
  = (frames, Some (FrameNotFound target_name)).
Proof.
  intros Hf Ht Hnone. unfold apply_overrides. rewrite Hf, Ht.
  by apply (apply_loop_None _ _ overrides) in Hnone as ->.
Qed.

Lemma apply_overrides_not_found_witness :
  apply_overrides [ {[ "Frame" := PyStr "A"; "X" := PyInt 1 ]} ]
                  {[ "Frame" := PyStr "B" ]}
  = ([ {[ "Frame" := PyStr "A"; "X" := PyInt 1 ]} ],
     Some (FrameNotFound (PyStr "B"))).
Proof.
  apply (apply_overrides_not_found _ _ (PyStr "B"));
    [reflexivity|reflexivity|].
  repeat constructor.
Defined.

(** Whatever makes [apply_overrides] exit, the frames are left as they
    were. *)
Lemma apply_overrides_exit_unchanged frames overrides exit :
  (apply_overrides frames overrides).2 = Some exit →
  (apply_overrides frames overrides).1 = frames.
Proof.
  unfold apply_overrides. destruct (overrides !! "Frame") as [t|]; [|done].
  destruct (truthy t); [|done].
  by destruct (apply_loop frames t overrides).
Qed.

(** C9: when [apply_overrides] returns, a second call with the same
    overrides returns too and changes nothing more. *)
Theorem apply_overrides_idempotent frames overrides frames' :
  apply_overrides frames overrides = (frames', None) →
  apply_overrides frames' overrides = (frames', None).
Proof.
  unfold apply_overrides. destruct (overrides !! "Frame") as [t|]; [|done].
  destruct (truthy t); [|done].
  destruct (apply_loop frames t overrides) as [fs|] eqn:Hloop; [|done].
  intros [= <-]. by rewrite (apply_loop_idemp _ _ _ _ Hloop).
Qed.

Lemma apply_overrides_idempotent_witness :
  apply_overrides
    [ {[ "Frame" := PyStr "A"; "X" := PyInt 99 ]};
      {[ "Frame" := PyStr "B"; "X" := PyInt 2 ]} ]
    {[ "Frame" := PyStr "A"; "X" := PyInt 99 ]}
  = ([ {[ "Frame" := PyStr "A"; "X" := PyInt 99 ]};
       {[ "Frame" := PyStr "B"; "X" := PyInt 2 ]} ], None).
Proof.
  apply (apply_overrides_idempotent
           [ {[ "Frame" := PyStr "A"; "X" := PyInt 1 ]};
             {[ "Frame" := PyStr "B"; "X" := PyInt 2 ]} ]).
  vm_compute. reflexivity.
Defined.

(** ** Override tokens *)

(** No two of [VALID_KEYS] agree in lower case, so the order in which the
    set is iterated does not matter to [next]. *)
Lemma VALID_KEYS_LOWER_NoDup : NoDup VALID_KEYS_LOWER.
Proof. vm_compute. repeat (constructor; [set_solver|]). constructor. Qed.

Lemma proper_key_found key :
  lower key ∈ VALID_KEYS_LOWER →
  ∃ i proper_key,
    list_find (λ vk, lower vk = lower key) VALID_KEYS = Some (i, proper_key)
    ∧ proper_key ∈ VALID_KEYS ∧ lower proper_key = lower key.
Proof.
  intros Hin. unfold VALID_KEYS_LOWER in Hin.
  apply list_elem_of_fmap in Hin as (vk & Hvk & Hin).
  destruct (list_find (λ vk, lower vk = lower key) VALID_KEYS)
    as [[i pk]|] eqn:Hfind.
  - apply list_find_Some in Hfind as (Hi & Hpk & _).
    exists i, pk. split; [done|]. split; [|done].
    by apply list_elem_of_lookup_2 in Hi.
  - apply list_find_None in Hfind.
    rewrite Forall_forall in Hfind. by destruct (Hfind vk Hin).
Qed.

Lemma parse_overrides_loop_step token rest overrides :
  parse_overrides_loop (token :: rest) overrides
  = match token_exit token with
    | Some exit => inl exit
    | None =>
        match list_find (λ vk, lower vk = lower (token_key token)) VALID_KEYS
        with
        | Some (_, proper_key) =>
            parse_overrides_loop rest
              (<[proper_key := token_value token]> overrides)
        | None => inl StopIteration
        end
    end.
Proof.
  cbn [parse_overrides_loop]. unfold token_exit, token_key, token_value.
  destruct (contains "=" token); [|done].
  destruct (split_once "=" token) as [key value]. simpl.
  by case_decide.
Qed.

Lemma parse_overrides_loop_spec pairs acc :
  match parse_overrides_loop pairs acc with
  | inl exit =>
      ∃ i token,
        pairs !! i = Some token ∧ token_exit token = Some exit
        ∧ ∀ j token', (j < i)%nat → pairs !! j = Some token' →
                      token_exit token' = None
  | inr overrides =>
      Forall (λ token, token_exit token = None) pairs
      ∧ (∀ key value, overrides !! key = Some value →
           acc !! key = Some value
           ∨ key ∈ VALID_KEYS
             ∧ ∃ token, token ∈ pairs
                 ∧ lower key = lower (token_key token)
                 ∧ value = token_value token)
      ∧ (∀ token, token ∈ pairs →
           ∃ key, key ∈ VALID_KEYS ∧ lower key = lower (token_key token)
                  ∧ is_Some (overrides !! key))
      ∧ (∀ key, is_Some (acc !! key) → is_Some (overrides !! key))
  end.
Proof.
  revert acc. induction pairs as [|token rest IH]; intros acc.
  - simpl. split_and!; [constructor|by left| |done].
    intros token Ht. by apply elem_of_nil in Ht.
  - rewrite parse_overrides_loop_step.
    destruct (token_exit token) as [exit|] eqn:Hexit.
    { exists 0%nat, token. split_and!; [done|done|lia]. }
    assert (lower (token_key token) ∈ VALID_KEYS_LOWER) as Hin.
    { unfold token_exit in Hexit. destruct (contains "=" token); [|done].
      by case_decide. }
    destruct (proper_key_found _ Hin) as (i & pk & -> & Hpk & Hlow).
    specialize (IH (<[pk := token_value token]> acc)).
    destruct (parse_overrides_loop rest _) as [exit|overrides].
    + destruct IH as (j & token' & Hj & Hexit' & Hfirst).
      exists (S j), token'. split_and!; [done|done|].
      intros [|k] t Hk Ht; simpl in Ht; [by simplify_eq|].
      apply (Hfirst k); [lia|done].
    + destruct IH as (Hall & Hfrom & Hkeys & Hacc).
      split_and!.
      * by constructor.
      * intros key value Hkv. destruct (Hfrom key value Hkv) as [Hold|Hnew].
        -- destruct (decide (pk = key)) as [->|Hne].
           ++ rewrite lookup_insert_eq in Hold. simplify_eq. right.
              split; [done|]. exists token.
              split_and!; [apply list_elem_of_here|done..].
           ++ rewrite lookup_insert_ne in Hold by done. by left.
        -- right. destruct Hnew as (? & t & ? & ? & ?).
           split; [done|]. exists t.
           split_and!; [by apply list_elem_of_further|done..].
      * intros t [->|Ht]%elem_of_cons; [|by apply Hkeys].
        exists pk. split_and!; [done..|]. apply Hacc.
        by rewrite lookup_insert_eq.
      * intros key Hkey. apply Hacc.
        destruct (decide (pk = key)) as [->|Hne].
        -- by rewrite lookup_insert_eq.
        -- by rewrite lookup_insert_ne.
Qed.

(** C7: [parse_overrides] is all or nothing.  It exits at the first token
    that has no ["="] or whose key is not, in lower case, one of
    [VALID_KEYS], printing that token or that key, and then no mapping is
    returned; otherwise it returns a mapping whose keys are spelled as in
    [VALID_KEYS], one for each token, with the value of a token with that
    key. *)
Theorem parse_overrides_all_or_nothing pairs :
  match parse_overrides pairs with
  | inl exit =>
      ∃ i token,
        pairs !! i = Some token ∧ token_exit token = Some exit
        ∧ ∀ j token', (j < i)%nat → pairs !! j = Some token' →
                      token_exit token' = None
  | inr overrides =>
      Forall (λ token, token_exit token = None) pairs
      ∧ (∀ key value, overrides !! key = Some value →
           key ∈ VALID_KEYS
           ∧ ∃ token, token ∈ pairs
               ∧ lower key = lower (token_key token)
               ∧ value = token_value token)
      ∧ (∀ token, token ∈ pairs →
           ∃ key, key ∈ VALID_KEYS ∧ lower key = lower (token_key token)
                  ∧ is_Some (overrides !! key))
  end
  ∧ (Exists (λ token, token_exit token ≠ None) pairs →
     ∃ exit, parse_overrides pairs = inl exit)
  ∧ parse_overrides ["anchor=TL"] = inr {[ "Anchor" := PyStr "TL" ]}
  ∧ parse_overrides ["frame=A"; "z=1"] = inl (InvalidKey "z")
  ∧ parse_overrides ["frame=A"; "X"] = inl (InvalidSetArgument "X").
Proof.
  pose proof (parse_overrides_loop_spec pairs ∅) as Hspec.
  unfold parse_overrides.
  destruct (parse_overrides_loop pairs ∅) as [exit|overrides].
  - split; [done|]. split; [by exists exit|].
    split_and!; vm_compute; reflexivity.
  - destruct Hspec as (Hall & Hfrom & Hkeys & _). split; [|split].
    + split_and!; [done| |done].
      intros key value Hkv. destruct (Hfrom key value Hkv) as [Hold|Hnew];
        [by rewrite lookup_empty in Hold|done].
    + intros Hbad. apply Exists_exists in Hbad as (t & Ht & Hbad).
      rewrite Forall_forall in Hall. by destruct Hbad; apply Hall.
    + split_and!; vm_compute; reflexivity.
Qed.

(** ** Equality of values *)

Lemma float_eq_int_value f z :
  float_eq_int f z = true
  ↔ ∃ q, float_value f = Some q ∧ (q == inject_Z z)%Q.
Proof.
  destruct f as [s|s| |s m e]; simpl.
  - rewrite Z.eqb_eq. split.
    + intros ->. by exists 0%Q.
    + intros (q & [= <-] & Hq). symmetry.
      by apply (inject_Z_injective 0 z).
  - split; [done|]. by intros (q & ? & _).
  - split; [done|]. by intros (q & ? & _).
  - set (v := if s then Z.neg m else Z.pos m).
    destruct (Z.leb_spec 0 e) as [He|He].
    + rewrite Z.eqb_eq.
      assert (inject_Z v * inject_Z 2 ^ e == inject_Z (v * 2 ^ e))%Q as Hv.
      { by rewrite inject_Z_mult, Zpower_Qpower. }
      split.
      * intros ->. eexists. split; [done|]. apply Hv.
      * intros (q & [= <-] & Hq). rewrite Hv in Hq.
        symmetry. by apply inject_Z_injective.
    + rewrite Z.eqb_eq.
      assert (¬ (inject_Z (2 ^ (- e)) == 0)%Q) as Hne.
      { change 0%Q with (inject_Z 0). rewrite inject_Z_injective.
        assert (0 < 2 ^ (- e))%Z by (apply Z.pow_pos_nonneg; lia). lia. }
      assert (inject_Z 2 ^ e == / inject_Z (2 ^ (- e)))%Q as He2.
      { replace e with (- - e)%Z at 1 by lia.
        rewrite Qpower_opp, <-Zpower_Qpower by lia. reflexivity. }
      assert (∀ q, (q == inject_Z v * inject_Z 2 ^ e)%Q →
                   (q == inject_Z z)%Q ↔ (z * 2 ^ (- e))%Z = v) as Hiff.
      { intros q Hq. rewrite Hq, He2.
        rewrite <-(Qmult_inj_r _ _ (inject_Z (2 ^ (- e)))) by done.
        rewrite <-Qmult_assoc, (Qmult_comm (/ _)), Qmult_inv_r by done.
        rewrite Qmult_1_r, <-inject_Z_mult, inject_Z_injective.
        split; intros; by symmetry. }
      split.
      * intros Hz. eexists. split; [done|]. by apply Hiff.
      * intros (q & [= <-] & Hq). by apply (Hiff _ (Qeq_refl _)).
Qed.

(** [a == b], variant by variant: two strings when they are the same, two
    integers when they are the same, an integer and a float when the float
    stands for that integer, two floats by the IEEE comparison, and a number
    and a string never. *)
Lemma py_eq_spec a b :
  py_eq a b = true
  ↔ match a, b with
    | PyStr s, PyStr t => s = t
    | PyInt x, PyInt y => x = y
    | PyInt x, PyFloat f | PyFloat f, PyInt x =>
        ∃ q, float_value f = Some q ∧ (q == inject_Z x)%Q
    | PyFloat f, PyFloat g => SFeqb f g = true
    | _, _ => False
    end.
Proof.
  destruct a as [x|f|s], b as [y|g|t]; simpl; try done.
  - apply Z.eqb_eq.
  - apply float_eq_int_value.
  - apply float_eq_int_value.
  - apply bool_decide_eq_true.
Qed.

Lemma names_frame_str s frame :
  names_frame (PyStr s) frame = true ↔ frame !! "Frame" = Some (PyStr s).
Proof.
  unfold names_frame. destruct (frame !! "Frame") as [v|]; [|done].
  rewrite py_eq_spec. destruct v; naive_solver.
Qed.

Lemma truthy_false v :
  truthy v = false
  ↔ v = PyStr "" ∨ v = PyInt 0 ∨ ∃ s, v = PyFloat (S754_zero s).
Proof.
  destruct v as [z|f|s]; simpl.
  - rewrite negb_false_iff, Z.eqb_eq. naive_solver.
  - destruct f; naive_solver.
  - rewrite negb_false_iff, bool_decide_eq_true. naive_solver.
Qed.

(** The scan of [apply_overrides]: it stops at the first frame that
    [names_frame] accepts. *)
Lemma apply_overrides_scan frames overrides target_name :
  overrides !! "Frame" = Some target_name →
  truthy target_name = true →
  (∃ i frame,
      frames !! i = Some frame
      ∧ names_frame target_name frame = true
      ∧ (∀ j frame', (j < i)%nat → frames !! j = Some frame' →
                     names_frame target_name frame' = false)
      ∧ apply_overrides frames overrides
        = (<[i := update_frame frame overrides]> frames, None))
  ∨ (Forall (λ frame, names_frame target_name frame = false) frames
     ∧ apply_overrides frames overrides
       = (frames, Some (FrameNotFound target_name))).
Proof.
  intros Hf Ht. rewrite apply_overrides_cases, Hf, Ht.
  destruct (list_find _ frames) as [[i frame]|] eqn:Hfind.
  - left. apply list_find_Some in Hfind as (Hi & Hn & Hfirst).
    exists i, frame. split_and!; [done..| |done].
    intros j fr Hj Hfr. specialize (Hfirst j fr Hfr Hj).
    by destruct (names_frame target_name fr).
  - right. split; [|done]. apply list_find_None in Hfind.
    eapply Forall_impl; [done|]. simpl. intros fr Hfr.
    by destruct (names_frame target_name fr).
Qed.

(** C3 (as amended): [apply_overrides] takes the first frame, in order,
    whose ["Frame"] value equals the ["Frame"] value of the overrides under
    [==], and exits with the frame-not-found message when there is none.
    Under [==] a string equals the same string only and never a number, and
    an integer equals a float that stands for the same number. *)
Theorem apply_overrides_lookup frames overrides target_name :
  overrides !! "Frame" = Some target_name →
  truthy target_name = true →
  ((∃ i frame,
      frames !! i = Some frame
      ∧ names_frame target_name frame = true
      ∧ (∀ j frame', (j < i)%nat → frames !! j = Some frame' →
                     names_frame target_name frame' = false)
      ∧ apply_overrides frames overrides
        = (<[i := update_frame frame overrides]> frames, None))
   ∨ (Forall (λ frame, names_frame target_name frame = false) frames
      ∧ apply_overrides frames overrides
        = (frames, Some (FrameNotFound target_name))))
  ∧ (∀ frame,
       names_frame target_name frame = true
       ↔ ∃ v, frame !! "Frame" = Some v ∧ py_eq v target_name = true)
  ∧ (∀ a b,
       py_eq a b = true
       ↔ match a, b with
         | PyStr s, PyStr t => s = t
         | PyInt x, PyInt y => x = y
         | PyInt x, PyFloat f | PyFloat f, PyInt x =>
             ∃ q, float_value f = Some q ∧ (q == inject_Z x)%Q
         | PyFloat f, PyFloat g => SFeqb f g = true
         | _, _ => False
         end).
Proof.
  intros Hf Ht. split; [|split].
  - by apply apply_overrides_scan.
  - intros frame. unfold names_frame.
    destruct (frame !! "Frame") as [v|]; naive_solver.
  - apply py_eq_spec.
Qed.

Lemma apply_overrides_lookup_witness :
  ∃ i frame,
    [ {[ "Frame" := PyStr "B" ]}; {[ "Frame" := PyStr "A"; "X" := PyInt 1 ]} ]
      !! i = Some frame
    ∧ apply_overrides
        [ {[ "Frame" := PyStr "B" ]};
          {[ "Frame" := PyStr "A"; "X" := PyInt 1 ]} ]
        {[ "Frame" := PyStr "A"; "X" := PyInt 99 ]}
      = (<[i := update_frame frame {[ "Frame" := PyStr "A"; "X" := PyInt 99 ]}]>
           [ {[ "Frame" := PyStr "B" ]};
             {[ "Frame" := PyStr "A"; "X" := PyInt 1 ]} ], None).
Proof.
  destruct (apply_overrides_lookup
              [ {[ "Frame" := PyStr "B" ]};
                {[ "Frame" := PyStr "A"; "X" := PyInt 1 ]} ]
              {[ "Frame" := PyStr "A"; "X" := PyInt 99 ]}
              (PyStr "A"))
    as [[(i & frame & Hi & _ & _ & Happly)|[Hnone _]] _];
    [reflexivity|reflexivity| |].
  - by exists i, frame.
  - apply Forall_cons in Hnone as [_ [Hc _]%Forall_cons].
    vm_compute in Hc. discriminate.
Defined.

(** C3, the counterexample: a frame whose name was read as the integer 1 is
    found by the override [Frame=1.0], read as a float. *)
Lemma integer_matches_real_counterexample :
  auto_cast "1" = PyInt 1
  ∧ auto_cast "1.0" = PyFloat (S754_finite false 4503599627370496 (-52))
  ∧ py_eq (PyInt 1) (PyFloat (S754_finite false 4503599627370496 (-52)))
    = true
  ∧ apply_overrides
      [ {[ "Frame" := PyInt 1; "X" := PyInt 0 ]} ]
      {[ "Frame" := PyFloat (S754_finite false 4503599627370496 (-52));
         "X" := PyInt 5 ]}
    = ([ {[ "Frame" := PyInt 1; "X" := PyInt 5 ]} ], None).
Proof. split_and!; vm_compute; reflexivity. Qed.

(** C4: the exit with the frame-required message is taken exactly when the
    overrides have no ["Frame"] value or one that is false as a truth value,
    which the empty string is, but the numbers 0 and 0.0 are too: the
    overrides [Frame=0 X=5] are refused whatever the frames are. *)
Theorem frame_named_zero_is_refused :
  (∀ frames overrides,
     (apply_overrides frames overrides).2 = Some FrameRequired
     ↔ overrides !! "Frame" = None
       ∨ overrides !! "Frame" = Some (PyStr "")
       ∨ overrides !! "Frame" = Some (PyInt 0)
       ∨ ∃ s, overrides !! "Frame" = Some (PyFloat (S754_zero s)))
  ∧ parse_overrides ["Frame=0"; "X=5"]
    = inr {[ "Frame" := PyInt 0; "X" := PyInt 5 ]}
  ∧ ∀ frames,
      apply_overrides frames {[ "Frame" := PyInt 0; "X" := PyInt 5 ]}
      = (frames, Some FrameRequired).
Proof.
  split; [|split; [vm_compute; reflexivity|done]].
  intros frames overrides. rewrite apply_overrides_cases.
  destruct (overrides !! "Frame") as [t|] eqn:Hf; [|naive_solver].
  destruct (truthy t) eqn:Ht.
  - assert (¬ (t = PyStr "" ∨ t = PyInt 0 ∨ ∃ s, t = PyFloat (S754_zero s)))
      as Hnot by (rewrite <-truthy_false; congruence).
    destruct (list_find _ frames) as [[i fr]|]; simpl; naive_solver.
  - apply truthy_false in Ht. simpl. naive_solver.
Qed.

(** ** The sorted keys of a frame *)

Lemma other_keys_elem frame key :
  key ∈ other_keys frame ↔ key ≠ "Frame" ∧ is_Some (frame !! key).
Proof.
  unfold other_keys. rewrite merge_sort_Permutation, list_elem_of_filter.
  rewrite list_elem_of_fmap. split.
  - intros (Hne & [k v] & -> & Hkv). apply elem_of_map_to_list in Hkv.
    split; [done|]. by exists v.
  - intros (Hne & v & Hv). split; [done|]. exists (key, v).
    split; [done|]. by apply elem_of_map_to_list.
Qed.

Lemma other_keys_NoDup frame : NoDup (other_keys frame).
Proof.
  unfold other_keys. rewrite merge_sort_Permutation.
  apply NoDup_filter, NoDup_fst_map_to_list.
Qed.

Lemma other_keys_sorted frame : StronglySorted String.le (other_keys frame).
Proof. apply StronglySorted_merge_sort; apply _. Qed.

Lemma sorted_keys_unique (l1 l2 : list string) :
  StronglySorted String.le l1 → StronglySorted String.le l2 →
  NoDup l1 → NoDup l2 → (∀ k, k ∈ l1 ↔ k ∈ l2) → l1 = l2.
Proof.
  intros Hs1 Hs2 Hn1 Hn2 Hel.
  apply (StronglySorted_unique String.le); [done..|].
  by apply NoDup_Permutation.
Qed.

(** Storing one more key leaves the sorted keys as they are, but for that
    key, which is put in its place if it was not there. *)
Lemma other_keys_insert frame key value :
  key ≠ "Frame" →
  ∃ l1 l2,
    other_keys (<[key := value]> frame) = l1 ++ key :: l2
    ∧ key ∉ l1 ∧ key ∉ l2
    ∧ (frame !! key = None ∧ other_keys frame = l1 ++ l2
       ∨ is_Some (frame !! key) ∧ other_keys frame = l1 ++ key :: l2).
Proof.
  intros Hne.
  assert (key ∈ other_keys (<[key := value]> frame)) as Hin.
  { apply other_keys_elem. split; [done|]. by rewrite lookup_insert_eq. }
  apply list_elem_of_split in Hin as (l1 & l2 & Hl).
  pose proof (other_keys_NoDup (<[key := value]> frame)) as Hnd.
  pose proof (other_keys_sorted (<[key := value]> frame)) as Hso.
  rewrite Hl in Hnd, Hso.
  apply NoDup_app in Hnd as (Hnd1 & Hnd12 & Hnd2).
  apply NoDup_cons in Hnd2 as [Hk2 Hnd2].
  assert (key ∉ l1) as Hk1 by (intros ?; apply (Hnd12 key); set_solver).
  exists l1, l2. split_and!; [done..|].
  assert (∀ k, k ∈ l1 ++ key :: l2
               ↔ k ≠ "Frame" ∧ is_Some (<[key := value]> frame !! k)) as Hel.
  { intros k. by rewrite <-Hl, other_keys_elem. }
  destruct (frame !! key) as [v|] eqn:Hfk; [right|left]; (split; [done|]).
  - apply sorted_keys_unique;
      [apply other_keys_sorted|done|apply other_keys_NoDup| |].
    { apply NoDup_app. split_and!; [done|done|by apply NoDup_cons]. }
    intros k. rewrite other_keys_elem, Hel.
    destruct (decide (key = k)) as [->|Hk].
    + rewrite lookup_insert_eq, Hfk. naive_solver.
    + by rewrite lookup_insert_ne.
  - apply sorted_keys_unique; [apply other_keys_sorted| |apply other_keys_NoDup| |].
    { apply StronglySorted_app in Hso as (H12 & Hs1 & Hs2).
      apply StronglySorted_cons in Hs2 as [_ Hs2].
      apply StronglySorted_app. split_and!; [|done..].
      intros x1 x2 ??. apply H12; set_solver. }
    { apply NoDup_app. split_and!; [done| |done].
      intros k ??. apply (Hnd12 k); set_solver. }
    intros k. rewrite other_keys_elem. specialize (Hel k).
    destruct (decide (key = k)) as [<-|Hk].
    + rewrite Hfk. split; [|set_solver]. intros [_ []]. done.
    + rewrite lookup_insert_ne in Hel by done. rewrite <-Hel. set_solver.
Qed.

(** ** The effect of a merge on the serialized lines *)

Lemma field_line_insert_ne frame key value key' :
  key ≠ key' → field_line (<[key := value]> frame) key' = field_line frame key'.
Proof. intros Hne. unfold field_line. by rewrite lookup_insert_ne. Qed.

Lemma field_lines_insert_notin frame key value (l : list string) :
  key ∉ l → field_line (<[key := value]> frame) <$> l = field_line frame <$> l.
Proof.
  intros Hl. apply list_fmap_ext. intros i k Hk.
  apply field_line_insert_ne. intros ->.
  by apply list_elem_of_lookup_2 in Hk.
Qed.

Lemma frame_lines_insert frame key value :
  key ≠ "Frame" →
  ∃ before old after,
    frame_lines frame = before ++ old ++ after
    ∧ frame_lines (<[key := value]> frame)
      = before ++ [key +:+ ": " +:+ py_str value] ++ after
    ∧ (frame !! key = None ∧ old = []
       ∨ ∃ v, frame !! key = Some v ∧ old = [key +:+ ": " +:+ py_str v]).
Proof.
  intros Hne.
  destruct (other_keys_insert frame key value Hne)
    as (l1 & l2 & Hl' & Hk1 & Hk2 & Hl).
  set (first := "Frame: " +:+ py_str (default (PyStr "") (frame !! "Frame"))).
  exists (first :: (field_line frame <$> l1)),
         (match frame !! key with
          | Some v => [key +:+ ": " +:+ py_str v]
          | None => []
          end),
         (field_line frame <$> l2).
  split_and!.
  - unfold frame_lines. fold first.
    destruct Hl as [[Hfk ->]|[[v Hfk] ->]]; rewrite Hfk.
    + by rewrite fmap_app.
    + rewrite fmap_app, fmap_cons. unfold field_line at 2. by rewrite Hfk.
  - unfold frame_lines. rewrite lookup_insert_ne by done. fold first.
    rewrite Hl', fmap_app, fmap_cons, !field_lines_insert_notin by done.
    unfold field_line at 2. by rewrite lookup_insert_eq.
  - destruct (frame !! key) as [v|]; [right; by exists v|by left].
Qed.

Lemma output_lines_insert frames version_header i frame frame' before old new after :
  frames !! i = Some frame →
  frame_lines frame = before ++ old ++ after →
  frame_lines frame' = before ++ new ++ after →
  ∃ before' after',
    output_lines frames version_header = before' ++ old ++ after'
    ∧ output_lines (<[i := frame']> frames) version_header
      = before' ++ new ++ after'.
Proof.
  intros Hi Hold Hnew.
  apply list_elem_of_split_length in Hi as (pre & post & -> & ->).
  exists (version_header :: concat (frame_lines <$> pre) ++ before),
         (after ++ concat (frame_lines <$> post)).
  unfold output_lines.
  rewrite insert_app_r_alt, Nat.sub_diag by done. simpl.
  rewrite !fmap_app, !fmap_cons, !concat_app, !concat_cons, Hold, Hnew.
  by rewrite <-!(assoc_L (++)).
Qed.

(** C6: on frames with one named ["A"], the overrides [{Frame: "A", X: 99}]
    store 99 under ["X"] in the first frame named ["A"] and change nothing
    else: every other frame and every other field of that frame, its
    ["Frame"] value included, stay as they were, and the serialized lines are
    the same but for the line [X: 99], which takes the place of the former
    line of ["X"] if there was one. *)
Theorem apply_overrides_frame_effect frames version_header :
  (∃ frame, frame ∈ frames ∧ frame !! "Frame" = Some (PyStr "A")) →
  let overrides : Frame := {[ "Frame" := PyStr "A"; "X" := PyInt 99 ]} in
  ∃ i frame,
    frames !! i = Some frame
    ∧ frame !! "Frame" = Some (PyStr "A")
    ∧ (∀ j frame', (j < i)%nat → frames !! j = Some frame' →
                   frame' !! "Frame" ≠ Some (PyStr "A"))
    ∧ apply_overrides frames overrides
      = (<[i := <["X" := PyInt 99]> frame]> frames, None)
    ∧ (∀ key, key ≠ "X" → <["X" := PyInt 99]> frame !! key = frame !! key)
    ∧ (∀ j, j ≠ i →
            (<[i := <["X" := PyInt 99]> frame]> frames) !! j = frames !! j)
    ∧ ∃ before old after,
        output_lines frames version_header = before ++ old ++ after
        ∧ output_lines (<[i := <["X" := PyInt 99]> frame]> frames)
                       version_header
          = before ++ ["X: 99"] ++ after
        ∧ (frame !! "X" = None ∧ old = []
           ∨ ∃ v, frame !! "X" = Some v ∧ old = ["X: " +:+ py_str v]).
Proof.
  intros (frameA & HinA & HA) overrides.
  destruct (apply_overrides_scan frames overrides (PyStr "A"))
    as [(i & frame & Hi & Hn & Hfirst & Happly)|[Hnone _]];
    [done|done| |].
  - assert (update_frame frame overrides = <["X" := PyInt 99]> frame) as Hup.
    { apply map_eq. intros key. rewrite update_frame_lookup.
      case_decide as Hk; [subst; by rewrite lookup_insert_ne|].
      destruct (decide (key = "X")) as [->|Hx].
      - by rewrite lookup_insert_eq.
      - rewrite lookup_insert_ne by done. subst overrides.
        rewrite lookup_insert_ne by done. by rewrite lookup_singleton_ne. }
    rewrite Hup in Happly. exists i, frame. split_and!; [done| |..|done| | |].
    + by apply names_frame_str.
    + intros j fr Hj Hfr Hname. apply names_frame_str in Hname.
      by rewrite (Hfirst j fr Hj Hfr) in Hname.
    + intros key Hk. by rewrite lookup_insert_ne.
    + intros j Hj. by rewrite list_lookup_insert_ne.
    + destruct (frame_lines_insert frame "X" (PyInt 99))
        as (before & old & after & Hold & Hnew & Hcases); [done|].
      destruct (output_lines_insert frames version_header i frame
                  (<["X" := PyInt 99]> frame) before old
                  ["X" +:+ ": " +:+ py_str (PyInt 99)] after Hi Hold Hnew)
        as (before' & after' & Ho & Hn').
      assert ("X" +:+ ": " +:+ py_str (PyInt 99) = "X: 99") as Hline
        by (vm_compute; reflexivity).
      rewrite Hline in Hn'. exists before', old, after'.
      split_and!; [exact Ho|exact Hn'|exact Hcases].
  - rewrite Forall_forall in Hnone. specialize (Hnone frameA HinA).
    apply names_frame_str in HA. by rewrite HA in Hnone.
Qed.

Lemma apply_overrides_frame_effect_witness :
  ∃ i frame,
    [ {[ "Frame" := PyStr "B" ]}; {[ "Frame" := PyStr "A"; "X" := PyInt 1 ]} ]
      !! i = Some frame
    ∧ apply_overrides
        [ {[ "Frame" := PyStr "B" ]};
          {[ "Frame" := PyStr "A"; "X" := PyInt 1 ]} ]
        {[ "Frame" := PyStr "A"; "X" := PyInt 99 ]}
      = (<[i := <["X" := PyInt 99]> frame]>
           [ {[ "Frame" := PyStr "B" ]};
             {[ "Frame" := PyStr "A"; "X" := PyInt 1 ]} ], None).
Proof.
  destruct (apply_overrides_frame_effect
              [ {[ "Frame" := PyStr "B" ]};
                {[ "Frame" := PyStr "A"; "X" := PyInt 1 ]} ] "v1")
    as (i & frame & Hi & _ & _ & Happly & _).
  - exists {[ "Frame" := PyStr "A"; "X" := PyInt 1 ]}.
    split; [set_solver|reflexivity].
  - by exists i, frame.
Defined.

(** ** The integer syntax of [auto_cast] *)

Lemma split_sign_unfold s :
  split_sign s
  = match s with
    | String c r =>
        if decide (c = "-"%char) then (true, r)
        else if decide (c = "+"%char) then (false, r)
        else (false, s)
    | EmptyString => (false, s)
    end.
Proof.
  destruct s as [|c r]; [done|].
  by destruct c as [[] [] [] [] [] [] [] []].
Qed.

Lemma digitpart_digit prev acc c d r :
  digit_of c = Some d →
  digitpart prev acc (String c r) = digitpart true (10 * acc + d)%N r.
Proof. intros Hd. simpl. by rewrite Hd. Qed.

Lemma digit_of_underscore : digit_of "_" = None.
Proof. reflexivity. Qed.







(** The number parsers skip the white space that [strip] removes, but for
    the separators 28 to 31. *)
Lemma strip_by_ext p q s :
  str_forall (λ c, bool_decide (p c = q c)) s = true →
  strip_by p s = strip_by q s.
Proof.
  intros Hs. unfold strip_by.
  assert (rstrip_by p s = rstrip_by q s) as ->.
  { induction s as [|c s IH]; [done|]. simpl in *.
    apply andb_true_iff in Hs as [Hc%bool_decide_eq_true Hs].
    by rewrite IH, Hc. }
  apply (str_forall_rstrip_by q) in Hs. revert Hs.
  generalize (rstrip_by q s). intros t.
  induction t as [|c t IH]; [done|]. simpl.
  intros [Hc%bool_decide_eq_true Ht]%andb_true_iff. rewrite Hc.
  destruct (q c); auto.
Qed.

Lemma num_strip_strip s :
  str_forall (λ c, negb (is_space c) || is_num_space c) s = true →
  strip_by is_num_space s = strip s.
Proof.
  intros Hs. apply strip_by_ext. eapply str_forall_impl; [|done].
  intros c. by destruct c as [[] [] [] [] [] [] [] []].
Qed.


(** C5, the counterexample: ["+5"] and ["1_000"] are not integers in the
    syntax the specification gives, an optional minus and digits, and
    [auto_cast] returns an integer for both. *)
Lemma plus_sign_counterexample :
  spec_int_syntax (strip "+5") = false ∧ auto_cast "+5" = PyInt 5
  ∧ spec_int_syntax (strip "1_000") = false ∧ auto_cast "1_000" = PyInt 1000.
Proof. split_and!; vm_compute; reflexivity. Qed.

(** ** Printed numbers *)

Lemma pretty_N_char_digit d :
  (d < 10)%N → digit_of (pretty_N_char d) = Some d.
Proof.
  intros Hd.
  assert (d = 0 ∨ d = 1 ∨ d = 2 ∨ d = 3 ∨ d = 4 ∨ d = 5 ∨ d = 6 ∨ d = 7
          ∨ d = 8 ∨ d = 9)%N as Hcases by lia.
  repeat destruct Hcases as [->|Hcases]; try reflexivity. by subst.
Qed.

Lemma pretty_N_go_digits x s :
  str_forall is_digit s = true → str_forall is_digit (pretty_N_go x s) = true.
Proof.
  revert s. induction (N.lt_wf_0 x) as [x _ IH]; intros s Hs.
  destruct (decide (x = 0)%N) as [->|Hx]; [done|].
  rewrite pretty_N_go_step by lia. apply IH.
  - apply N.div_lt; lia.
  - simpl. rewrite Hs, andb_true_r. unfold is_digit.
    by rewrite pretty_N_char_digit by (apply N.mod_lt; lia).
Qed.

Lemma pretty_N_go_ne_nil x s : s ≠ "" → pretty_N_go x s ≠ "".
Proof.
  revert s. induction (N.lt_wf_0 x) as [x _ IH]; intros s Hs.
  destruct (decide (x = 0)%N) as [->|Hx]; [done|].
  rewrite pretty_N_go_step by lia. apply IH; [apply N.div_lt; lia|done].
Qed.

Lemma pretty_N_digits (n : N) : str_forall is_digit (pretty n) = true.
Proof.
  unfold pretty, pretty_N. case_decide; [done|]. by apply pretty_N_go_digits.
Qed.

Lemma pretty_N_ne_nil (n : N) : pretty n ≠ "".
Proof.
  unfold pretty, pretty_N. case_decide; [done|].
  assert (0 < n)%N by lia. rewrite pretty_N_go_step by done.
  by apply pretty_N_go_ne_nil.
Qed.

Lemma digitpart_pretty_N_go x s :
  (0 < x)%N → digitpart false 0%N (pretty_N_go x s) = digitpart true x s.
Proof.
  revert s. induction (N.lt_wf_0 x) as [x _ IH]; intros s Hx.
  rewrite pretty_N_go_step by done.
  assert (digit_of (pretty_N_char (x `mod` 10)) = Some (x `mod` 10)%N) as Hd
    by (apply pretty_N_char_digit, N.mod_lt; lia).
  assert (x = 10 * (x `div` 10) + x `mod` 10)%N as Hdm
    by (by apply N.div_mod).
  assert (x `div` 10 < x)%N as Hlt by (apply N.div_lt; lia).
  destruct (decide (x `div` 10 = 0)%N) as [Hq|Hq].
  - rewrite Hq, pretty_N_go_0, (digitpart_digit _ _ _ _ _ Hd).
    f_equal. rewrite Hdm at 2. by rewrite Hq.
  - apply N.neq_0_lt_0 in Hq. rewrite IH by done.
    rewrite (digitpart_digit _ _ _ _ _ Hd). f_equal. by rewrite <-Hdm.
Qed.

Lemma digitpart_pretty_N (n : N) : digitpart false 0%N (pretty n) = Some n.
Proof.
  unfold pretty, pretty_N. case_decide as Hn; [by subst|].
  by rewrite digitpart_pretty_N_go by lia.
Qed.

Lemma pretty_Z_nonneg (z : Z) : 0 ≤ z → pretty z = pretty (Z.to_N z).
Proof. destruct z; [done|done|lia]. Qed.

Lemma pretty_Z_neg p : pretty (Z.neg p) = "-" +:+ pretty (N.pos p).
Proof. done. Qed.

Lemma str_forall_no_edges p s :
  str_forall (λ c, negb (p c)) s = true →
  no_lead p s = true ∧ no_trail p s = true.
Proof.
  intros Hs. split.
  - destruct s as [|c s]; [done|]. simpl in *. by destruct (p c).
  - induction s as [|c s IH]; [done|]. simpl in *.
    apply andb_true_iff in Hs as [Hc Hs]. destruct s; [done|]. by apply IH.
Qed.

Lemma no_space_wf_text s :
  str_forall (λ c, negb (is_space c)) s = true → wf_text s.
Proof.
  intros Hs. destruct (str_forall_no_edges _ _ Hs) as [Hl Ht].
  split_and!; [done..|]. eapply str_forall_impl; [|done].
  intros c. by destruct c as [[] [] [] [] [] [] [] []].
Qed.

Lemma no_space_num_strip s :
  str_forall (λ c, negb (is_space c)) s = true →
  strip_by is_num_space s = s.
Proof.
  intros Hs.
  assert (str_forall (λ c, negb (is_num_space c)) s = true) as Hs'.
  { eapply str_forall_impl; [|done].
    intros c. by destruct c as [[] [] [] [] [] [] [] []]. }
  destruct (str_forall_no_edges _ _ Hs'). by apply strip_by_id.
Qed.

Lemma digits_no_space s :
  str_forall is_digit s = true →
  str_forall (λ c, negb (is_space c)) s = true.
Proof.
  apply str_forall_impl. intros c.
  by destruct c as [[] [] [] [] [] [] [] []].
Qed.

Lemma pretty_Z_no_space (z : Z) :
  str_forall (λ c, negb (is_space c)) (pretty z) = true.
Proof.
  destruct z as [|p|p].
  - done.
  - apply digits_no_space, (pretty_N_digits (N.pos p)).
  - rewrite pretty_Z_neg, str_forall_app.
    by rewrite (digits_no_space _ (pretty_N_digits (N.pos p))).
Qed.

Lemma split_sign_digits s :
  str_forall is_digit s = true → split_sign s = (false, s).
Proof.
  rewrite split_sign_unfold. destruct s as [|c s]; [done|]. simpl.
  intros [Hc _]%andb_true_iff.
  rewrite !decide_False; [done|by intros ->..].
Qed.

Lemma int_of_string_pretty (z : Z) : int_of_string (pretty z) = Some z.
Proof.
  unfold int_of_string. rewrite no_space_num_strip by apply pretty_Z_no_space.
  destruct z as [|p|p].
  - done.
  - change (pretty (Z.pos p)) with (pretty (N.pos p)).
    rewrite split_sign_digits by apply pretty_N_digits.
    by rewrite digitpart_pretty_N.
  - rewrite pretty_Z_neg.
    change (split_sign ("-" +:+ pretty (N.pos p)))
      with (true, pretty (N.pos p)).
    cbv beta iota. by rewrite digitpart_pretty_N.
Qed.

Lemma wf_value_int z : wf_value (PyInt z).
Proof.
  split; [apply no_space_wf_text, pretty_Z_no_space|].
  unfold auto_cast. simpl. by rewrite int_of_string_pretty.
Qed.

(** ** The [repr] of a float *)

Lemma str_forall_zeros p n : p "0"%char = true → str_forall p (zeros n) = true.
Proof. intros Hp. induction n; simpl; [done|]. by rewrite Hp. Qed.
Lemma str_forall_take_str p n s :
  str_forall p s = true → str_forall p (take_str n s) = true.
Proof.
  revert s. induction n as [|n IH]; intros [|c s]; simpl; try done.
  intros [-> Hs]%andb_true_iff. by apply IH.
Qed.
Lemma str_forall_drop_str p n s :
  str_forall p s = true → str_forall p (drop_str n s) = true.
Proof.
  revert s. induction n as [|n IH]; intros [|c s]; simpl; try done.
  intros [_ Hs]%andb_true_iff. by apply IH.
Qed.

Lemma digits_repr_chars s :
  str_forall is_digit s = true → str_forall repr_char s = true.
Proof.
  apply str_forall_impl. intros c Hc. unfold repr_char. by rewrite Hc.
Qed.

Lemma format_repr_chars d decpt :
  str_forall repr_char (format_repr d decpt) = true
  ∧ contains "." (format_repr d decpt) || contains "e" (format_repr d decpt)
    = true.
Proof.
  pose proof (digits_repr_chars _ (pretty_N_digits d)) as Hds.
  assert (str_forall repr_char (pretty (Z.abs (decpt - 1))) = true) as Hax.
  { rewrite pretty_Z_nonneg by lia. apply digits_repr_chars, pretty_N_digits. }
  unfold format_repr.
  repeat case_match;
    rewrite ?str_forall_app, ?contains_app, ?Hds, ?Hax,
      ?str_forall_take_str, ?str_forall_drop_str, ?str_forall_zeros by done;
    split; try reflexivity; simpl; by rewrite ?orb_true_r.
Qed.

Lemma float_repr_chars f :
  str_forall repr_char (float_repr f) = true
  ∧ contains "." (float_repr f) || contains "e" (float_repr f)
    || contains "n" (float_repr f) = true.
Proof.
  destruct f as [[]|[]| |s m e]; try done. simpl.
  destruct (shortest_digits m e) as [d decpt].
  destruct (format_repr_chars d decpt) as [Hc Hm].
  rewrite str_forall_app, !contains_app, Hc. split.
  - by destruct s.
  - apply orb_true_iff in Hm as [->| ->]; by rewrite ?orb_true_r.
Qed.

Lemma digitpart_chars prev acc s n :
  digitpart prev acc s = Some n →
  str_forall (λ c, is_digit c || bool_decide (c = "_"%char)) s = true.
Proof.
  revert prev acc. induction s as [|c s IH]; intros prev acc; [done|].
  simpl. unfold is_digit. destruct (digit_of c) as [d|].
  - intros Hs. simpl. by eapply IH.
  - case_decide as Hc; [|done]. destruct prev; [|done].
    intros Hs. rewrite bool_decide_true by done. simpl. by eapply IH.
Qed.

Lemma rstrip_by_nil p s : rstrip_by p s = "" → str_forall p s = true.
Proof.
  induction s as [|c s IH]; [done|]. simpl.
  destruct (rstrip_by p s); [|done]. destruct (p c); [|done].
  intros _. by rewrite IH.
Qed.

Lemma str_forall_strip_by_inv p q s :
  str_forall q (strip_by p s) = true →
  str_forall (λ c, q c || p c) s = true.
Proof.
  unfold strip_by. intros Hs.
  assert (str_forall (λ c, q c || p c) (rstrip_by p s) = true) as Hr.
  { revert Hs. generalize (rstrip_by p s). intros t.
    induction t as [|c t IH]; [done|]. simpl.
    destruct (p c) eqn:Hc.
    - intros Ht. by rewrite orb_true_r, IH.
    - intros Ht. simpl in Ht. apply andb_true_iff in Ht as [-> Ht]. simpl.
      eapply str_forall_impl; [|done]. intros a ->. done. }
  clear Hs. induction s as [|c s IH]; [done|]. simpl in *.
  destruct (rstrip_by p s) as [|c' r] eqn:Hrs.
  - apply rstrip_by_nil in Hrs. destruct (p c) eqn:Hc.
    + rewrite orb_true_r. simpl. eapply str_forall_impl; [|done].
      intros a ->. by rewrite orb_true_r.
    + simpl in Hr. rewrite Hc in Hr.
      apply andb_true_iff in Hr as [Hqc _]. rewrite Hqc. simpl.
      eapply str_forall_impl; [|done]. intros a ->. by rewrite orb_true_r.
  - apply andb_true_iff in Hr as [Hqc Hr]. rewrite Hqc. simpl. by apply IH.
Qed.

Lemma str_forall_contains p c s :
  str_forall p s = true → contains c s = true → p c = true.
Proof.
  induction s as [|a s IH]; [done|]. simpl.
  intros [Ha Hs]%andb_true_iff. case_decide; [by subst|auto].
Qed.

Lemma int_of_string_chars s z :
  int_of_string s = Some z →
  str_forall (λ c, (is_digit c || contains c "_+-") || is_num_space c) s
  = true.
Proof.
  unfold int_of_string. intros Hs. apply str_forall_strip_by_inv.
  revert Hs. generalize (strip_by is_num_space s). intros t.
  rewrite split_sign_unfold.
  assert (∀ r, is_Some (digitpart false 0%N r) →
               str_forall (λ c, is_digit c || contains c "_+-") r = true)
    as Hdigits.
  { intros r [n Hn]. apply digitpart_chars in Hn.
    eapply str_forall_impl; [|done]. intros c Hc.
    apply orb_true_iff in Hc as [->|Hc%bool_decide_eq_true]; [done|].
    by subst. }
  destruct t as [|c r]; [done|].
  repeat case_decide; subst;
    (destruct (digitpart false 0%N _) as [n|] eqn:Hn; [|done]); intros _.
  - simpl. apply Hdigits. by rewrite Hn.
  - simpl. apply Hdigits. by rewrite Hn.
  - apply Hdigits. by rewrite Hn.
Qed.

Lemma int_of_string_float_repr f : int_of_string (float_repr f) = None.
Proof.
  destruct (int_of_string (float_repr f)) as [z|] eqn:Hz; [|done].
  apply int_of_string_chars in Hz.
  destruct (float_repr_chars f) as [_ Hm].
  apply orb_true_iff in Hm as [Hm|Hm]; [apply orb_true_iff in Hm as [Hm|Hm]|];
    by apply (str_forall_contains _ _ _ Hz) in Hm.
Qed.

Lemma wf_value_float f : reads_back (PyFloat f) → wf_value (PyFloat f).
Proof.
  intros Hf. split.
  - apply no_space_wf_text. destruct (float_repr_chars f) as [Hc _].
    eapply str_forall_impl; [|exact Hc].
    intros c. by destruct c as [[] [] [] [] [] [] [] []].
  - unfold auto_cast. simpl. by rewrite int_of_string_float_repr, Hf.
Qed.

Lemma wf_value_auto_cast s :
  wf_text s → reads_back (auto_cast s) → wf_value (auto_cast s).
Proof.
  intros (Hl & Ht & Hn). unfold auto_cast.
  destruct (int_of_string s) as [z|] eqn:Hz; [intros _; apply wf_value_int|].
  destruct (float_of_string s) as [f|] eqn:Hf; [apply wf_value_float|].
  intros _. unfold strip. rewrite strip_by_id by done.
  split; [done|]. simpl. unfold auto_cast. rewrite Hz, Hf.
  unfold strip. by rewrite strip_by_id.
Qed.

(** ** Lines of a text *)

Lemma split_lines_line l rest :
  no_newline l = true →
  split_lines (l +:+ String LF rest) = l :: split_lines rest.
Proof.
  induction l as [|c l IH]; [done|]. rewrite str_app_cons.
  intros [Hc Hl]%andb_true_iff. cbn [split_lines].
  apply negb_true_iff in Hc. by rewrite Hc, (IH Hl).
Qed.

Lemma split_lines_single l : no_newline l = true → split_lines l = [l].
Proof.
  induction l as [|c l IH]; [done|].
  intros [Hc Hl]%andb_true_iff. cbn [split_lines].
  apply negb_true_iff in Hc. by rewrite Hc, (IH Hl).
Qed.

Lemma split_lines_join ls :
  Forall (λ l, no_newline l = true) ls →
  split_lines (join (String LF "") ls)
  = match ls with [] => [""] | _ => ls end.
Proof.
  induction 1 as [|l ls Hl Hls IH]; [done|].
  destruct ls as [|l' ls]; [by apply split_lines_single|].
  unfold join in *. cbn [String.concat].
  change (String.append ?a ?b) with (a +:+ b).
  rewrite str_app_cons, str_app_nil_l, split_lines_line by done.
  f_equal. exact IH.
Qed.

Lemma split_lines_no_newline s :
  Forall (λ l, no_newline l = true) (split_lines s).
Proof.
  induction s as [|c s IH]; [by repeat constructor|]. cbn [split_lines].
  destruct (is_newline c) eqn:Hc; [by constructor|].
  destruct (split_lines s) as [|l ls].
  - repeat constructor. unfold no_newline. simpl. by rewrite Hc.
  - apply Forall_cons in IH as [Hl Hls]. constructor; [|done].
    unfold no_newline in *. simpl. by rewrite Hc.
Qed.

Lemma wf_text_strip s : no_newline s = true → wf_text (strip s).
Proof.
  intros Hs. split_and!.
  - apply no_lead_strip_by.
  - apply no_trail_strip_by.
  - by apply str_forall_strip_by.
Qed.

Lemma wf_text_strip_id s : wf_text s → strip s = s.
Proof. intros (Hl & Ht & _). by apply strip_by_id. Qed.

Lemma read_lines_wf text :
  Forall (λ l, l ≠ "" ∧ wf_text l) (read_lines text).
Proof.
  unfold read_lines. apply Forall_forall. intros l Hl.
  apply list_elem_of_filter in Hl as [Hne Hl].
  apply list_elem_of_fmap in Hl as (l0 & -> & Hl0). split; [done|].
  apply wf_text_strip.
  pose proof (split_lines_no_newline text) as Hall.
  rewrite Forall_forall in Hall. by apply Hall.
Qed.

Lemma read_lines_join ls :
  Forall (λ l, no_newline l = true) ls →
  read_lines (join (String LF "") ls) = filter (λ l, l ≠ "") (strip <$> ls).
Proof.
  intros Hls. unfold read_lines. rewrite split_lines_join by done.
  by destruct ls.
Qed.

(** ** One serialized line read back *)

Lemma wf_key_head key :
  wf_key key → ∃ c r, key = String c r ∧ is_space c = false.
Proof.
  intros (Hne & (Hl & _ & _) & _). destruct key as [|c r]; [done|].
  exists c, r. split; [done|]. simpl in Hl. by destruct (is_space c).
Qed.

Lemma strip_field_line key s :
  wf_key key → wf_text s →
  ∃ w, strip (key +:+ ": " +:+ s) = key +:+ String ":" w ∧ strip w = s.
Proof.
  intros Hkey Hs. exists (rstrip_by is_space (String " " s)).
  destruct (wf_key_head _ Hkey) as (c & r & -> & Hc).
  split.
  - unfold strip, strip_by.
    change (": " +:+ s) with (String ":" (String " " s)).
    rewrite rstrip_by_app.
    + rewrite rstrip_by_cons by done. rewrite str_app_cons.
      simpl. by rewrite Hc.
    + by rewrite rstrip_by_cons.
  - unfold strip, strip_by.
    rewrite (rstrip_by_no_trail _ (rstrip_by _ _))
      by apply no_trail_rstrip_by.
    change (strip_by is_space (String " " s) = s).
    rewrite strip_by_cons_true by done. by apply wf_text_strip_id.
Qed.

Lemma parse_field_line key v :
  wf_key key → wf_value v →
  parse_kv_line (strip (key +:+ ": " +:+ py_str v)) = Some (key, v).
Proof.
  intros Hkey [Ht Hv].
  destruct (strip_field_line key (py_str v) Hkey Ht) as (w & -> & Hw).
  destruct Hkey as (Hne & Hkt & Hcolon).
  unfold parse_kv_line.
  rewrite contains_app, Hcolon. cbn [contains orb].
  rewrite decide_True by done.
  rewrite split_once_app by done.
  by rewrite (wf_text_strip_id key), Hw, Hv.
Qed.

Lemma add_field_line frame_data key v :
  wf_key key → wf_value v →
  add_line frame_data (strip (key +:+ ": " +:+ py_str v))
  = <[key := v]> frame_data.
Proof.
  intros Hkey Hv. unfold add_line. rewrite parse_field_line by done.
  destruct Hkey as (Hne & _). by rewrite decide_False.
Qed.

Lemma field_line_ok key v :
  wf_key key → wf_value v →
  no_newline (key +:+ ": " +:+ py_str v) = true
  ∧ strip (key +:+ ": " +:+ py_str v) ≠ "".
Proof.
  intros Hkey [Ht Hv]. split.
  - destruct Hkey as (_ & (_ & _ & Hk) & _). destruct Ht as (_ & _ & Hs).
    unfold no_newline in *. by rewrite !str_forall_app, Hk, Hs.
  - destruct (strip_field_line key (py_str v) Hkey Ht) as (w & -> & _).
    destruct (wf_key_head _ Hkey) as (c & r & -> & _). done.
Qed.

(** ** Parsed frames are well formed *)

Lemma parse_kv_line_wf line key v :
  no_newline line = true →
  parse_kv_line line = Some (key, v) → key ≠ "" → entry_ok key v.
Proof.
  intros Hline. unfold parse_kv_line.
  destruct (contains ":" line) eqn:Hc; [|done].
  destruct (split_once_spec _ _ Hc) as (k0 & v0 & Hsplit & -> & Hk0).
  rewrite Hsplit. intros [= <- <-] Hne.
  unfold no_newline in Hline. rewrite str_forall_app in Hline.
  apply andb_true_iff in Hline as [Hk0n Hv0n].
  simpl in Hv0n. split.
  - split_and!; [done|by apply wf_text_strip|].
    apply contains_false. by apply str_forall_strip_by, contains_false.
  - apply wf_value_auto_cast, wf_text_strip. by destruct (is_newline ":").
Qed.

Lemma add_line_wf frame_data line :
  no_newline line = true →
  map_Forall entry_ok frame_data →
  map_Forall entry_ok (add_line frame_data line).
Proof.
  intros Hline Hm. unfold add_line.
  destruct (parse_kv_line line) as [[key v]|] eqn:Hp; [|done].
  case_decide as Hne; [done|].
  apply map_Forall_insert_2; [|done]. by eapply parse_kv_line_wf.
Qed.

Lemma block_frame_wf ls :
  Forall (λ l, no_newline l = true) ls → map_Forall entry_ok (block_frame ls).
Proof.
  unfold block_frame.
  assert (map_Forall entry_ok (∅ : Frame)) as H by apply map_Forall_empty.
  revert H. generalize (∅ : Frame).
  induction ls as [|l ls IH]; intros m Hm Hls; simpl; [done|].
  apply Forall_cons in Hls as [Hl Hls]. apply IH; [|done].
  by apply add_line_wf.
Qed.

Lemma blocks_wf n ls :
  Forall (λ l, no_newline l = true) ls →
  Forall (map_Forall entry_ok) (blocks n ls).
Proof.
  revert ls. induction n as [|n IH]; intros ls Hls; simpl; constructor.
  - by apply block_frame_wf, Forall_take.
  - by apply IH, Forall_drop.
Qed.

Lemma get_frames_wf text frames version_header :
  get_frames text = Some (frames, version_header) →
  Forall (map_Forall entry_ok) frames
  ∧ (version_header = "" ∧ frames = []
     ∨ version_header ≠ "" ∧ wf_text version_header).
Proof.
  rewrite get_frames_blocks. pose proof (read_lines_wf text) as Hwf.
  destruct (read_lines text) as [|h rest]; intros [= <- <-].
  - split; [constructor|by left].
  - apply Forall_cons in Hwf as [[Hne Hh] Hrest]. split; [|by right].
    apply blocks_wf. eapply Forall_impl; [done|].
    by intros l (_ & _ & _ & ?).
Qed.

(** ** One serialized frame read back *)

Lemma frame_lines_fields frame v :
  frame !! "Frame" = Some v →
  frame_lines frame = field_line frame <$> ("Frame" :: other_keys frame).
Proof.
  intros Hv. unfold frame_lines. rewrite fmap_cons. f_equal.
  unfold field_line. by rewrite Hv.
Qed.

Lemma keys_of_frame frame key :
  is_Some (frame !! "Frame") →
  key ∈ "Frame" :: other_keys frame ↔ is_Some (frame !! key).
Proof.
  intros HF. rewrite elem_of_cons, other_keys_elem.
  destruct (decide (key = "Frame")) as [->|]; naive_solver.
Qed.

Lemma foldl_add_field_lines frame ks m key :
  (∀ k, k ∈ ks → ∃ v, frame !! k = Some v ∧ wf_key k ∧ wf_value v) →
  foldl add_line m (strip <$> (field_line frame <$> ks)) !! key
  = if decide (key ∈ ks) then frame !! key else m !! key.
Proof.
  revert m. induction ks as [|k ks IH]; intros m Hks.
  - case_decide as Hin; [by apply elem_of_nil in Hin|done].
  - destruct (Hks k) as (v & Hv & Hk & Hwf); [apply list_elem_of_here|].
    rewrite !fmap_cons. cbn [foldl].
    replace (field_line frame k) with (k +:+ ": " +:+ py_str v)
      by (unfold field_line; by rewrite Hv).
    rewrite add_field_line by done.
    rewrite IH by (intros k' Hk'; by apply Hks, list_elem_of_further).
    destruct (decide (key = k)) as [->|Hne].
    + rewrite lookup_insert_eq.
      destruct (decide (k ∈ k :: ks)) as [_|Hn];
        [|by destruct Hn; apply list_elem_of_here].
      by case_decide.
    + rewrite lookup_insert_ne by done.
      destruct (decide (key ∈ ks)) as [Hin|Hin];
        destruct (decide (key ∈ k :: ks)) as [Hin'|Hin']; try done.
      * by destruct Hin'; apply list_elem_of_further.
      * by apply elem_of_cons in Hin' as [?|?].
Qed.

Lemma block_frame_frame_lines frame :
  map_Forall (λ key v, wf_key key ∧ wf_value v) frame →
  is_Some (frame !! "Frame") →
  block_frame (strip <$> frame_lines frame) = frame.
Proof.
  intros Hwf [vF HF]. rewrite (frame_lines_fields _ _ HF).
  apply map_eq. intros key. unfold block_frame.
  rewrite foldl_add_field_lines.
  - case_decide as Hin; [done|]. rewrite lookup_empty.
    rewrite keys_of_frame in Hin by (by exists vF).
    symmetry. by apply eq_None_not_Some.
  - intros k [v Hv]%keys_of_frame; [|by exists vF].
    exists v. split; [done|]. by apply (Hwf k v).
Qed.

Lemma frame_lines_ok frame :
  map_Forall (λ key v, wf_key key ∧ wf_value v) frame →
  is_Some (frame !! "Frame") →
  Forall (λ l, no_newline l = true ∧ strip l ≠ "") (frame_lines frame).
Proof.
  intros Hwf [vF HF]. rewrite (frame_lines_fields _ _ HF).
  apply Forall_fmap, Forall_forall. intros k [v Hv]%keys_of_frame;
    [|by exists vF].
  simpl. unfold field_line. rewrite Hv. cbn [from_option].
  destruct (Hwf k v Hv). by apply field_line_ok.
Qed.

Lemma length_frame_lines frame :
  full_frame frame → length (frame_lines frame) = 7%nat.
Proof.
  intros [[vF HF] Hsize]. rewrite (frame_lines_fields _ _ HF), length_fmap.
  rewrite <-Hsize, <-length_map_to_list, <-(length_fmap fst).
  apply Permutation_length, NoDup_Permutation.
  - apply NoDup_cons. split; [|apply other_keys_NoDup].
    rewrite other_keys_elem. naive_solver.
  - apply NoDup_fst_map_to_list.
  - intros k. rewrite keys_of_frame by (by exists vF).
    rewrite list_elem_of_fmap. split.
    + intros [v Hv]. exists (k, v). split; [done|].
      by apply elem_of_map_to_list.
    + intros ([k' v] & -> & Hkv). apply elem_of_map_to_list in Hkv.
      by exists v.
Qed.

(** ** The whole text read back *)

Lemma blocks_concat (bs : list (list string)) :
  Forall (λ b, length b = 7%nat) bs →
  blocks (length (concat bs) / 7) (concat bs) = block_frame <$> bs.
Proof.
  induction 1 as [|b bs Hb Hbs IH]; [done|].
  rewrite concat_cons, length_app, Hb.
  replace (7 + length (concat bs))%nat
    with (1 * 7 + length (concat bs))%nat by lia.
  rewrite Nat.div_add_l by lia. cbn [Nat.add blocks].
  rewrite take_app_length', drop_app_length' by done.
  by rewrite IH.
Qed.

Lemma filter_all {A} (P : A → Prop) `{∀ x, Decision (P x)} (l : list A) :
  Forall P l → filter P l = l.
Proof.
  induction 1 as [|x l Hx Hl IH]; [done|].
  by rewrite filter_cons_True, IH.
Qed.

Lemma fmap_concat_lines (f : string → string) (bs : list (list string)) :
  f <$> concat bs = concat ((λ b : list string, f <$> b) <$> bs).
Proof.
  induction bs as [|b bs IH]; [done|].
  by rewrite fmap_cons, !concat_cons, fmap_app, IH.
Qed.

Lemma read_back_frames frames :
  Forall (λ frame, map_Forall (λ key v, wf_key key ∧ wf_value v) frame
                   ∧ full_frame frame) frames →
  let rest := strip <$> concat (frame_lines <$> frames) in
  Forall (λ l, no_newline l = true) (concat (frame_lines <$> frames))
  ∧ Forall (λ l, l ≠ "") rest
  ∧ blocks (length rest / 7) rest = frames.
Proof.
  intros Hframes rest. split_and!.
  - apply Forall_concat, Forall_fmap.
    eapply Forall_impl; [exact Hframes|]. intros frame [Hwf [HF _]]. simpl.
    eapply Forall_impl; [by apply frame_lines_ok|]. by intros l [? _].
  - subst rest. apply Forall_fmap, Forall_concat, Forall_fmap.
    eapply Forall_impl; [exact Hframes|]. intros frame [Hwf [HF _]]. simpl.
    eapply Forall_impl; [by apply frame_lines_ok|]. by intros l [_ ?].
  - subst rest. rewrite fmap_concat_lines, blocks_concat.
    + rewrite <-!list_fmap_compose.
      rewrite <-(list_fmap_id frames) at 2. apply Forall_fmap_ext.
      eapply Forall_impl; [exact Hframes|]. intros frame [Hwf [HF _]].
      simpl. by apply block_frame_frame_lines.
    + apply Forall_fmap, Forall_fmap.
      eapply Forall_impl; [exact Hframes|]. intros frame [_ Hfull].
      cbv beta. unfold compose. by rewrite length_fmap, length_frame_lines.
Qed.

(** C1 (as amended): when the frames that [get_frames] returns each hold a
    ["Frame"] value and six more fields, and their floats read back from
    their [repr], then [get_frames] on the serialized text returns the same
    header and the same frames, and serializing these gives the same text
    again. *)
Theorem parse_serialize_round_trip text frames version_header :
  get_frames text = Some (frames, version_header) →
  Forall full_frame frames →
  Forall (map_Forall (λ _ v, reads_back v)) frames →
  get_frames (serialize_frames frames version_header)
  = Some (frames, version_header)
  ∧ (λ '(frames', header'), serialize_frames frames' header')
      <$> get_frames (serialize_frames frames version_header)
    = Some (serialize_frames frames version_header).
Proof.
  intros Hparse Hfull Hreads.
  cut (get_frames (serialize_frames frames version_header)
       = Some (frames, version_header)).
  { intros ->. by split. }
  destruct (get_frames_wf _ _ _ Hparse) as [Hok Hheader].
  assert (Forall (λ frame, map_Forall (λ key v, wf_key key ∧ wf_value v) frame
                           ∧ full_frame frame) frames) as Hframes.
  { clear Hparse Hheader. induction frames as [|frame frames IH];
      [constructor|].
    apply Forall_cons in Hok as [Hok1 Hok], Hfull as [Hfull1 Hfull],
      Hreads as [Hreads1 Hreads].
    constructor; [|by apply IH]. split; [|done].
    intros key v Hkv. destruct (Hok1 key v Hkv) as [Hkey Hv].
    split; [done|]. apply Hv. by apply (Hreads1 key v). }
  destruct Hheader as [[-> ->]|[Hne Hh]]; [reflexivity|].
  destruct (read_back_frames frames Hframes) as (Hnl & Hrest & Hblocks).
  rewrite get_frames_blocks. unfold serialize_frames, output_lines.
  rewrite read_lines_join.
  - rewrite fmap_cons, (wf_text_strip_id _ Hh).
    rewrite filter_cons_True by done. rewrite filter_all by done.
    by rewrite Hblocks.
  - constructor; [|done]. by destruct Hh as (_ & _ & ?).
Qed.

Lemma parse_serialize_round_trip_witness :
  get_frames
    (serialize_frames
       [ list_to_map
           [("Frame", PyStr "A"); ("X", PyInt 1);
            ("Y", PyFloat (S754_finite false 5629499534213120 (-51)));
            ("W", PyInt 10); ("H", PyInt (-20)); ("Anchor", PyStr "TOP LEFT");
            ("FrameLevel", PyStr "")] ]
       "v1")
  = Some ([ list_to_map
              [("Frame", PyStr "A"); ("X", PyInt 1);
               ("Y", PyFloat (S754_finite false 5629499534213120 (-51)));
               ("W", PyInt 10); ("H", PyInt (-20));
               ("Anchor", PyStr "TOP LEFT"); ("FrameLevel", PyStr "")] ],
          "v1").
Proof.
  apply (parse_serialize_round_trip
           (join (String LF "")
              ["v1"; ""; "Frame: A"; "X: 1"; "  Y: 2.5"; "W: 10"; "H: -20";
               "Anchor:TOP LEFT "; "FrameLevel:"; "trailing"])).
  - vm_compute. reflexivity.
  - repeat constructor. by eexists.
  - constructor; [|constructor].
    repeat (apply map_Forall_insert_2;
            [first [exact I|vm_compute; reflexivity]|]).
    apply map_Forall_empty.
Defined.

(** C1, the counterexample: a block in which a key comes twice gives a
    frame of six fields; it is serialized as six lines, too few for a block,
    so the text read again gives no frame at all. *)
Lemma short_frame_counterexample :
  get_frames
    (join (String LF "")
       ["v1"; "Frame: A"; "X: 1"; "X: 2"; "Y: 3"; "W: 4"; "H: 5";
        "Anchor: TL"])
  = Some ([ list_to_map
              [("Frame", PyStr "A"); ("X", PyInt 2); ("Y", PyInt 3);
               ("W", PyInt 4); ("H", PyInt 5); ("Anchor", PyStr "TL")] ],
          "v1")
  ∧ serialize_frames
      [ list_to_map
          [("Frame", PyStr "A"); ("X", PyInt 2); ("Y", PyInt 3);
           ("W", PyInt 4); ("H", PyInt 5); ("Anchor", PyStr "TL")] ]
      "v1"
    = join (String LF "")
        ["v1"; "Frame: A"; "Anchor: TL"; "H: 5"; "W: 4"; "X: 2"; "Y: 3"]
  ∧ get_frames
      (join (String LF "")
         ["v1"; "Frame: A"; "Anchor: TL"; "H: 5"; "W: 4"; "X: 2"; "Y: 3"])
    = Some ([], "v1")
  ∧ serialize_frames [] "v1" = "v1".
Proof. split_and!; vm_compute; reflexivity. Qed.

(** * Further properties *)

(** ** Blank text and the header *)

Lemma split_lines_ne s : split_lines s ≠ [].
Proof.
  destruct s as [|c r]; [done|]. simpl.
  destruct (is_newline c); [done|]. by destruct (split_lines r).
Qed.

Lemma str_forall_split_lines p s :
  str_forall p s = true → Forall (λ l, str_forall p l = true) (split_lines s).
Proof.
  induction s as [|c r IH]; simpl; [by repeat constructor|].
  intros [Hc Hr]%andb_true_iff. specialize (IH Hr).
  destruct (is_newline c); [by constructor|].
  destruct (split_lines r) as [|l ls]; [by repeat constructor; simpl; rewrite Hc|].
  apply Forall_cons in IH as [Hl Hls]. constructor; [|done].
  simpl. by rewrite Hc.
Qed.

Lemma split_lines_str_forall p s :
  (∀ c, is_newline c = true → p c = true) →
  Forall (λ l, str_forall p l = true) (split_lines s) → str_forall p s = true.
Proof.
  intros Hnl. induction s as [|c r IH]; simpl; [done|].
  destruct (is_newline c) eqn:Hc.
  - intros [_ Hr]%Forall_cons. by rewrite (Hnl c Hc), IH.
  - pose proof (split_lines_ne r) as Hne.
    destruct (split_lines r) as [|l ls]; [done|].
    intros [Hl Hls]%Forall_cons. simpl in Hl.
    apply andb_true_iff in Hl as [-> Hl]. apply IH. by constructor.
Qed.

Lemma newline_is_space c : is_newline c = true → is_space c = true.
Proof.
  unfold is_newline, is_space. intros H.
  apply orb_true_iff in H as [H|H]; apply N.eqb_eq in H; by rewrite H.
Qed.

Lemma rstrip_by_all p s : str_forall p s = true → rstrip_by p s = "".
Proof.
  induction s as [|c r IH]; simpl; [done|].
  intros [Hc Hr]%andb_true_iff. by rewrite IH, Hc.
Qed.

Lemma strip_by_all p s : str_forall p s = true ↔ strip_by p s = "".
Proof.
  split.
  - intros H. unfold strip_by. by rewrite rstrip_by_all.
  - rewrite strip_by_comm. intros H%rstrip_by_nil.
    induction s as [|c r IH]; simpl in *; [done|].
    destruct (p c) eqn:Hc; [by apply IH|].
    simpl in H. by rewrite Hc in H.
Qed.

Lemma read_lines_nil text :
  read_lines text = [] ↔ str_forall is_space text = true.
Proof.
  unfold read_lines. split.
  - intros H. apply (split_lines_str_forall _ _ newline_is_space).
    induction (split_lines text) as [|l ls IH]; [constructor|].
    rewrite fmap_cons, filter_cons in H. case_decide as Hl; [done|].
    constructor; [|by apply IH]. apply strip_by_all.
    by destruct (decide (strip l = "")).
  - intros H%str_forall_split_lines.
    induction H as [|l ls Hl _ IH]; [done|].
    rewrite fmap_cons, filter_cons. apply strip_by_all in Hl.
    fold (strip l) in Hl. rewrite Hl. by case_decide.
Qed.

(** The text holds white space only exactly when [get_frames] returns no
    frame and the empty header; no frame ever comes with an empty header. *)
Theorem get_frames_blank_text text :
  (str_forall is_space text = true ↔ get_frames text = Some ([], ""))
  ∧ (∀ frames, get_frames text = Some (frames, "") →
               str_forall is_space text = true ∧ frames = []).
Proof.
  pose proof (read_lines_wf text) as Hwf.
  pose proof (read_lines_nil text) as Hnil.
  rewrite get_frames_blocks.
  destruct (read_lines text) as [|version_header rest].
  - split; [by split; [|intros _; apply Hnil]|].
    intros frames [= <-]. by split; [apply Hnil|].
  - apply Forall_cons in Hwf as [[Hne _] _].
    split; [split|].
    + intros H%Hnil. done.
    + intros [= _ ->]. done.
    + intros frames [= _ ->]. done.
Qed.

Lemma read_lines_space c text :
  is_space c = true → read_lines (String c text) = read_lines text.
Proof.
  intros Hc. unfold read_lines. simpl.
  destruct (is_newline c).
  - rewrite fmap_cons, filter_cons. by case_decide.
  - pose proof (split_lines_ne text) as Hne.
    destruct (split_lines text) as [|l ls]; [done|].
    rewrite !fmap_cons. unfold strip. by rewrite strip_by_cons_true.
Qed.

Lemma read_lines_blank_app blank text :
  str_forall is_space blank = true →
  read_lines (blank +:+ text) = read_lines text.
Proof.
  induction blank as [|c r IH]; [intros _; by rewrite str_app_nil_l|].
  simpl. intros [Hc Hr]%andb_true_iff.
  rewrite str_app_cons, read_lines_space by done. by apply IH.
Qed.

Lemma read_lines_line line text :
  no_newline line = true →
  read_lines (line +:+ String LF text)
  = (if decide (strip line = "") then [] else [strip line])
    ++ read_lines text.
Proof.
  intros Hline. unfold read_lines. rewrite split_lines_line by done.
  rewrite fmap_cons, filter_cons. by case_decide; case_decide.
Qed.

(** The header is the first line that holds more than white space, without
    the white space around it; the lines after it are read in groups of
    seven. *)
Theorem get_frames_header blank line text :
  str_forall is_space blank = true →
  no_newline line = true →
  strip line ≠ "" →
  ∃ frames,
    get_frames (blank +:+ line +:+ String LF text)
    = Some (frames, strip line)
    ∧ length frames = (length (read_lines text) / 7)%nat.
Proof.
  intros Hblank Hline Hne. rewrite get_frames_blocks.
  rewrite read_lines_blank_app, read_lines_line by done.
  rewrite decide_False by done. simpl.
  eexists. split; [done|]. apply length_blocks.
Qed.

Lemma get_frames_header_witness :
  ∃ frames,
    get_frames (String LF "  " +:+ " v1 " +:+ String LF "Frame: A")
    = Some (frames, "v1")
    ∧ length frames = 0%nat.
Proof.
  destruct (get_frames_header (String LF "  ") " v1 " "Frame: A")
    as (frames & Hget & Hlen); [reflexivity|reflexivity|by vm_compute|].
  exists frames. split; [exact Hget|]. rewrite Hlen. reflexivity.
Defined.

(** ** The fields of a parsed frame *)

Lemma size_add_line frame_data line :
  (size (add_line frame_data line) ≤ S (size frame_data))%nat.
Proof.
  unfold add_line. destruct (parse_kv_line line) as [[key value]|]; [|lia].
  case_decide; [lia|].
  destruct (frame_data !! key) eqn:Hkey.
  - rewrite map_size_insert_Some by done. lia.
  - rewrite map_size_insert_None by done. lia.
Qed.

Lemma size_foldl_add_line ls frame_data :
  (size (foldl add_line frame_data ls) ≤ size frame_data + length ls)%nat.
Proof.
  revert frame_data. induction ls as [|l ls IH]; intros frame_data; simpl.
  - lia.
  - specialize (IH (add_line frame_data l)).
    pose proof (size_add_line frame_data l). lia.
Qed.

Lemma size_blocks n ls :
  Forall (λ frame : Frame, (size frame ≤ 7)%nat) (blocks n ls).
Proof.
  revert ls. induction n as [|n IH]; intros ls; simpl; constructor; [|done].
  unfold block_frame.
  pose proof (size_foldl_add_line (take 7 ls) ∅) as H.
  rewrite map_size_empty, length_take in H. lia.
Qed.

Lemma repr_char_no_space c : repr_char c = true → is_space c = false.
Proof. by destruct c as [[] [] [] [] [] [] [] []]. Qed.

Lemma float_repr_stripped f : strip (float_repr f) = float_repr f.
Proof.
  apply wf_text_strip_id, no_space_wf_text.
  eapply str_forall_impl; [|apply float_repr_chars].
  intros c Hc. by rewrite (repr_char_no_space c Hc).
Qed.

(** A frame that [get_frames] returns holds at most seven fields.  Its keys
    are not empty, have no white space around them and no colon; its values
    print without white space around them, and the integers and strings
    among them are what [auto_cast] makes of their printed form. *)
Theorem get_frames_fields text frames version_header frame :
  get_frames text = Some (frames, version_header) →
  frame ∈ frames →
  (size frame ≤ 7)%nat
  ∧ ∀ key v,
      frame !! key = Some v →
      key ≠ "" ∧ strip key = key ∧ contains ":" key = false
      ∧ strip (py_str v) = py_str v
      ∧ match v with
        | PyFloat _ => True
        | _ => auto_cast (py_str v) = v
        end.
Proof.
  intros Hget Hframe. split.
  - rewrite get_frames_blocks in Hget.
    destruct (read_lines text) as [|header rest].
    + injection Hget as <- _. by apply elem_of_nil in Hframe.
    + injection Hget as <- _.
      pose proof (size_blocks (length rest / 7) rest) as Hsize.
      rewrite Forall_forall in Hsize. by apply Hsize.
  - intros key v Hkv.
    destruct (get_frames_wf _ _ _ Hget) as [Hok _].
    rewrite Forall_forall in Hok.
    destruct (Hok frame Hframe key v Hkv) as [(Hne & Hkey & Hcolon) Hv].
    split_and!; [done|by apply wf_text_strip_id|done| |].
    + destruct v as [z|f|s]; [| |]; simpl.
      * by apply wf_text_strip_id, (Hv I).
      * apply float_repr_stripped.
      * by apply wf_text_strip_id, (Hv I).
    + destruct v as [z|f|s]; [|done|]; by apply (Hv I).
Qed.

Lemma get_frames_fields_witness :
  (size (list_to_map
           [("Frame", PyStr "A"); ("X", PyInt 1); ("Y", PyInt 2);
            ("W", PyInt 10); ("Anchor", PyStr "TOP LEFT")] : Frame) ≤ 7)%nat.
Proof.
  apply (get_frames_fields
           (join (String LF "")
              ["v1"; "Frame: A"; "X: 1"; "Y : 2"; "W: 10"; "Anchor: TOP LEFT";
               "no colon here"; " : 5"])
           [list_to_map
              [("Frame", PyStr "A"); ("X", PyInt 1); ("Y", PyInt 2);
               ("W", PyInt 10); ("Anchor", PyStr "TOP LEFT")]]
           "v1").
  - vm_compute. reflexivity.
  - apply list_elem_of_here.
Defined.

(** ** What [auto_cast] reads back *)


(** The printed form of a float is never read as an integer, and the
    infinities, the zeros and the not-a-number are read back as they were. *)
Theorem auto_cast_float_repr (f : float) :
  (∀ z, auto_cast (py_str (PyFloat f)) ≠ PyInt z)
  ∧ match f with
    | S754_finite _ _ _ => True
    | _ => auto_cast (py_str (PyFloat f)) = PyFloat f
    end.
Proof.
  split.
  - intros z. unfold auto_cast. simpl. rewrite int_of_string_float_repr.
    by destruct (float_of_string (float_repr f)).
  - by destruct f as [[]|[]| |].
Qed.

Lemma lstrip_by_sub p q s :
  (∀ c, q c = true → p c = true) →
  lstrip_by p (lstrip_by q s) = lstrip_by p s.
Proof.
  intros Hsub. induction s as [|c r IH]; simpl; [done|].
  destruct (q c) eqn:Hq; [by rewrite (Hsub c Hq)|done].
Qed.

Lemma rstrip_by_sub p q s :
  (∀ c, q c = true → p c = true) →
  rstrip_by p (rstrip_by q s) = rstrip_by p s.
Proof.
  intros Hsub. induction s as [|c r IH]; simpl; [done|].
  destruct (rstrip_by q r) as [|c' r'] eqn:Hr.
  - simpl in IH. rewrite <-IH. destruct (q c) eqn:Hq.
    + by rewrite (Hsub c Hq).
    + done.
  - rewrite <-IH. done.
Qed.

Lemma strip_by_sub p q s :
  (∀ c, q c = true → p c = true) →
  strip_by p (strip_by q s) = strip_by p s.
Proof.
  intros Hsub. rewrite (strip_by_comm p). unfold strip_by at 1.
  rewrite lstrip_by_sub by done. rewrite <-strip_by_comm.
  unfold strip_by. by rewrite rstrip_by_sub.
Qed.

Lemma num_space_is_space c : is_num_space c = true → is_space c = true.
Proof. by destruct c as [[] [] [] [] [] [] [] []]. Qed.

Lemma auto_cast_num_space s :
  auto_cast (strip_by is_num_space s) = auto_cast s.
Proof.
  unfold auto_cast, int_of_string, float_of_string, strip.
  by rewrite strip_by_idemp, (strip_by_sub _ _ _ num_space_is_space).
Qed.

(** [parse_kv_line] and [parse_overrides] strip a value before they pass it
    to [auto_cast].  For a value without a separator U+001C to U+001F this
    changes nothing: [int] and [float] skip the same white space, and the
    string that is left is stripped in any case. *)
Theorem auto_cast_strip s :
  str_forall (λ c, negb (is_space c) || is_num_space c) s = true →
  auto_cast (strip s) = auto_cast s.
Proof.
  intros Hs. rewrite <-(num_strip_strip s Hs). apply auto_cast_num_space.
Qed.

Lemma auto_cast_strip_witness :
  auto_cast (strip "  -12 ") = auto_cast "  -12 ".
Proof. apply auto_cast_strip. reflexivity. Defined.

(** ** One line of a frame *)

(** A line is split at its first colon only: the value keeps every further
    colon.  A line without a colon gives no field. *)
Theorem parse_kv_line_first_colon key value :
  contains ":" key = false →
  parse_kv_line (key +:+ String ":" value)
  = Some (strip key, auto_cast (strip value))
  ∧ parse_kv_line key = None.
Proof.
  intros Hkey. unfold parse_kv_line.
  rewrite contains_app, Hkey, split_once_app by done. by simpl.
Qed.

Lemma parse_kv_line_first_colon_witness :
  parse_kv_line ("Anchor" +:+ String ":" " TOP:LEFT ")
  = Some (strip "Anchor", auto_cast (strip " TOP:LEFT ")).
Proof. apply parse_kv_line_first_colon. reflexivity. Defined.

(** ** The serialized text *)

Lemma other_keys_length frame :
  length (other_keys frame) = size (delete "Frame" frame).
Proof.
  rewrite <-length_map_to_list, <-(length_fmap fst).
  apply Permutation_length, NoDup_Permutation.
  - apply other_keys_NoDup.
  - apply NoDup_fst_map_to_list.
  - intros key. rewrite other_keys_elem, list_elem_of_fmap. split.
    + intros [Hne [v Hv]]. exists (key, v). split; [done|].
      apply elem_of_map_to_list. by rewrite lookup_delete_ne.
    + intros [[k v] [-> Hkv]]. apply elem_of_map_to_list in Hkv. simpl.
      destruct (decide (k = "Frame")) as [->|Hne].
      * by rewrite lookup_delete_eq in Hkv.
      * rewrite lookup_delete_ne in Hkv by done. by split; [|exists v].
Qed.

(** The lines of a frame: the ["Frame"] line comes first, also when the
    frame has no ["Frame"] field, and then one line for each other field,
    the keys in ascending order and none twice. *)
Theorem frame_lines_sorted frame :
  ∃ keys,
    frame_lines frame
    = ("Frame: " +:+ match frame !! "Frame" with
                     | Some v => py_str v
                     | None => ""
                     end)
      :: ((λ key, key +:+ ": " +:+ from_option py_str "" (frame !! key))
            <$> keys)
    ∧ StronglySorted String.le keys
    ∧ NoDup keys
    ∧ (∀ key, key ∈ keys ↔ key ≠ "Frame" ∧ is_Some (frame !! key))
    ∧ length keys = size (delete "Frame" frame).
Proof.
  exists (other_keys frame). split_and!.
  - unfold frame_lines. by destruct (frame !! "Frame").
  - apply other_keys_sorted.
  - apply other_keys_NoDup.
  - apply other_keys_elem.
  - apply other_keys_length.
Qed.

Lemma join_cons sep l ls :
  ls ≠ [] → join sep (l :: ls) = l +:+ sep +:+ join sep ls.
Proof. by destruct ls. Qed.

Lemma join_app_lines sep l ls1 ls2 :
  join sep (l :: ls1 ++ ls2) = join sep (join sep (l :: ls1) :: ls2).
Proof.
  revert l. induction ls1 as [|l1 ls1 IH]; intros l; [done|].
  rewrite <-app_comm_cons, join_cons by done. rewrite IH.
  rewrite (join_cons _ l (l1 :: ls1)) by done.
  destruct ls2 as [|l2 ls2].
  - done.
  - rewrite !(join_cons _ _ (l2 :: ls2)) by done.
    by rewrite !str_app_assoc.
Qed.

(** Serializing is done frame by frame: further frames only add text at
    the end, and the text of no frame is the header alone. *)
Theorem serialize_frames_app frames1 frames2 version_header :
  serialize_frames (frames1 ++ frames2) version_header
  = serialize_frames frames2 (serialize_frames frames1 version_header)
  ∧ serialize_frames [] version_header = version_header.
Proof.
  split; [|done]. unfold serialize_frames, output_lines.
  by rewrite fmap_app, concat_app, join_app_lines.
Qed.

Lemma no_newline_app s t :
  no_newline (s +:+ t) = no_newline s && no_newline t.
Proof. apply str_forall_app. Qed.

Lemma repr_char_no_newline c : repr_char c = true → is_newline c = false.
Proof. by destruct c as [[] [] [] [] [] [] [] []]. Qed.

Lemma entry_ok_no_newline key v :
  entry_ok key v → no_newline key = true ∧ no_newline (py_str v) = true.
Proof.
  intros [(_ & (_ & _ & Hkey) & _) Hv]. split; [done|].
  destruct v as [z|f|s]; [by apply (Hv I)| |by apply (Hv I)].
  eapply str_forall_impl; [|apply float_repr_chars].
  intros c Hc. by rewrite (repr_char_no_newline c Hc).
Qed.

Lemma frame_lines_no_newline frame :
  map_Forall entry_ok frame →
  Forall (λ l, no_newline l = true) (frame_lines frame).
Proof.
  intros Hok. unfold frame_lines. constructor.
  - rewrite no_newline_app. apply andb_true_iff. split; [done|].
    destruct (frame !! "Frame") as [v|] eqn:Hv; [|done].
    by apply (entry_ok_no_newline "Frame"), Hok.
  - apply Forall_fmap, Forall_forall. intros key [_ [v Hv]]%other_keys_elem.
    simpl. unfold field_line. rewrite Hv. simpl.
    destruct (entry_ok_no_newline key v (Hok key v Hv)) as [Hkey Hval].
    by rewrite !no_newline_app, Hkey, Hval.
Qed.

(** The text serialized from parsed frames has the header on its first
    line and then, for each frame, one line more than the frame has fields
    other than ["Frame"]: no key and no value brings a line break of its
    own. *)
Theorem serialize_frames_lines text frames version_header :
  get_frames text = Some (frames, version_header) →
  split_lines (serialize_frames frames version_header)
  = version_header :: concat (frame_lines <$> frames)
  ∧ length (split_lines (serialize_frames frames version_header))
    = S (sum_list ((λ frame, S (size (delete "Frame" frame))) <$> frames)).
Proof.
  intros Hget. destruct (get_frames_wf _ _ _ Hget) as [Hok Hheader].
  assert (split_lines (serialize_frames frames version_header)
          = version_header :: concat (frame_lines <$> frames)) as ->.
  { unfold serialize_frames, output_lines. rewrite split_lines_join; [done|].
    constructor.
    - by destruct Hheader as [[-> _]|[_ (_ & _ & ?)]].
    - apply Forall_concat, Forall_fmap.
      eapply Forall_impl; [exact Hok|]. apply frame_lines_no_newline. }
  split; [done|]. simpl. f_equal. clear.
  induction frames as [|frame frames IH]; [done|].
  rewrite !fmap_cons. simpl. rewrite length_app, IH. f_equal.
  unfold frame_lines. simpl. by rewrite length_fmap, other_keys_length.
Qed.

Lemma serialize_frames_lines_witness :
  length (split_lines
            (serialize_frames
               [list_to_map [("Frame", PyStr "A"); ("X", PyInt 2)]] "v1"))
  = 3%nat.
Proof.
  apply (serialize_frames_lines
           (join (String LF "")
              ["v1"; "Frame: A"; "X: 1"; "X: 2"; ""; "a"; "b"; "c"; "d"])).
  vm_compute. reflexivity.
Defined.

(** ** Override tokens, one after the other *)

Lemma parse_overrides_loop_app pairs1 pairs2 overrides :
  parse_overrides_loop (pairs1 ++ pairs2) overrides
  = match parse_overrides_loop pairs1 overrides with
    | inl exit => inl exit
    | inr overrides' => parse_overrides_loop pairs2 overrides'
    end.
Proof.
  revert overrides. induction pairs1 as [|token pairs1 IH]; intros overrides;
    [done|].
  rewrite <-app_comm_cons, !parse_overrides_loop_step.
  destruct (token_exit token); [done|].
  by destruct (list_find _ VALID_KEYS) as [[_ proper_key]|].
Qed.

(** The tokens are taken from left to right, each one storing its value
    under the [VALID_KEYS] spelling of its key: a later token for a key
    replaces what an earlier one stored. *)
Theorem parse_overrides_last_wins pairs token overrides :
  parse_overrides pairs = inr overrides →
  token_exit token = None →
  ∃ key,
    key ∈ VALID_KEYS ∧ lower key = lower (token_key token)
    ∧ parse_overrides (pairs ++ [token])
      = inr (<[key := token_value token]> overrides).
Proof.
  intros Hpairs Htoken. unfold parse_overrides in *.
  rewrite parse_overrides_loop_app, Hpairs, parse_overrides_loop_step, Htoken.
  unfold token_exit in Htoken.
  destruct (contains "=" token); [|done].
  destruct (decide (lower (token_key token) ∈ VALID_KEYS_LOWER)) as [Hin|];
    [|done].
  destruct (proper_key_found _ Hin) as (i & key & -> & Hkey & Hlower).
  by exists key.
Qed.

Lemma parse_overrides_last_wins_witness :
  ∃ key,
    parse_overrides (["Frame=A"; "X=1"] ++ ["x = 2"])
    = inr (<[key := token_value "x = 2"]>
             ({[ "Frame" := PyStr "A"; "X" := PyInt 1 ]} : Frame)).
Proof.
  destruct (parse_overrides_last_wins ["Frame=A"; "X=1"] "x = 2"
              {[ "Frame" := PyStr "A"; "X" := PyInt 1 ]})
    as (key & _ & _ & Hparse); [by vm_compute|by vm_compute|].
  by exists key.
Defined.

(** A key that passed the test against [VALID_KEYS_LOWER] is always found
    in [VALID_KEYS]: the search for its spelling never ends without a
    result. *)
Theorem parse_overrides_finds_key pairs :
  parse_overrides pairs ≠ inl StopIteration.
Proof.
  pose proof (parse_overrides_loop_spec pairs ∅) as Hspec.
  unfold parse_overrides. intros Hstop. rewrite Hstop in Hspec.
  destruct Hspec as (i & token & _ & Hexit & _).
  unfold token_exit in Hexit.
  destruct (contains "=" token); [|done]. by case_decide.
Qed.

(** [VALID_KEYS] is a set, and the spelling of a key is the first member
    that agrees with it in lower case: in whatever order the set is gone
    through, the same spelling is found. *)
Theorem proper_key_any_order keys key :
  keys ≡ₚ VALID_KEYS →
  snd <$> list_find (λ vk, lower vk = lower key) keys
  = snd <$> list_find (λ vk, lower vk = lower key) VALID_KEYS.
Proof.
  intros Hperm.
  destruct (list_find _ VALID_KEYS) as [[i vk]|] eqn:Hfind.
  - apply list_find_Some in Hfind as (Hi & Hvk & _).
    destruct (list_find _ keys) as [[j vk']|] eqn:Hfind'.
    + apply list_find_Some in Hfind' as (Hj & Hvk' & _). simpl. f_equal.
      apply list_elem_of_lookup_2 in Hi, Hj. rewrite Hperm in Hj.
      revert Hi Hj Hvk Hvk'. clear. unfold VALID_KEYS.
      rewrite !elem_of_cons, !elem_of_nil. intros Hi Hj <-.
      destruct Hi as [->|[->|[->|[->|[->|[->|[->|[]]]]]]]];
        destruct Hj as [->|[->|[->|[->|[->|[->|[->|[]]]]]]]]; by intros.
    + exfalso. eapply list_find_None in Hfind'.
      rewrite Forall_forall in Hfind'. apply (Hfind' vk); [|done].
      rewrite Hperm. by eapply list_elem_of_lookup_2.
  - destruct (list_find _ keys) as [[j vk']|] eqn:Hfind'; [|done].
    exfalso. apply list_find_Some in Hfind' as (Hj & Hvk' & _).
    eapply list_find_None in Hfind. rewrite Forall_forall in Hfind.
    apply (Hfind vk'); [|done]. rewrite <-Hperm.
    by eapply list_elem_of_lookup_2.
Qed.

Lemma proper_key_any_order_witness :
  snd <$> list_find (λ vk, lower vk = lower "ANCHOR") (reverse VALID_KEYS)
  = snd <$> list_find (λ vk, lower vk = lower "ANCHOR") VALID_KEYS.
Proof. apply proper_key_any_order. apply reverse_Permutation. Defined.

(** ** What a merge keeps *)

Lemma update_frame_keeps frame overrides :
  update_frame frame overrides !! "Frame" = frame !! "Frame"
  ∧ dom frame ⊆ dom (update_frame frame overrides).
Proof.
  split.
  - by rewrite update_frame_lookup, decide_True.
  - rewrite update_frame_union, dom_union. set_solver.
Qed.

(** Whether [apply_overrides] returns or exits, it leaves as many frames
    as there were, each with the ["Frame"] value it had and with every key
    it had. *)
Theorem apply_overrides_keeps frames overrides :
  Forall2 (λ frame frame' : Frame,
             frame' !! "Frame" = frame !! "Frame" ∧ dom frame ⊆ dom frame')
          frames (apply_overrides frames overrides).1.
Proof.
  assert (Forall2 (λ frame frame' : Frame,
                     frame' !! "Frame" = frame !! "Frame"
                     ∧ dom frame ⊆ dom frame') frames frames) as Hrefl.
  { by apply Forall_Forall2_diag, Forall_true. }
  unfold apply_overrides. destruct (overrides !! "Frame") as [t|]; [|done].
  destruct (truthy t); [|done].
  destruct (apply_loop frames t overrides) as [frames'|] eqn:Hloop; [|done].
  simpl. clear Hrefl. revert frames' Hloop.
  induction frames as [|frame frames IH]; intros frames'; simpl; [done|].
  destruct (names_frame t frame).
  - intros [= <-]. constructor; [apply update_frame_keeps|].
    by apply Forall_Forall2_diag, Forall_true.
  - destruct (apply_loop frames t overrides) as [rest|]; [|done].
    intros [= <-]. constructor; [done|]. by apply IH.
Qed.

(** When [apply_overrides] returns, one frame was replaced: under
    ["Frame"] it holds what it held, under every other key the value of
    the overrides if they have one, and what it held if not. *)
Theorem apply_overrides_fields frames overrides frames' :
  apply_overrides frames overrides = (frames', None) →
  ∃ i frame frame',
    frames !! i = Some frame
    ∧ frames' = <[i := frame']> frames
    ∧ ∀ key,
        frame' !! key
        = if decide (key = "Frame") then frame !! key
          else match overrides !! key with
               | Some value => Some value
               | None => frame !! key
               end.
Proof.
  rewrite apply_overrides_cases.
  destruct (overrides !! "Frame") as [t|]; [|done].
  destruct (truthy t); [|done].
  destruct (list_find _ frames) as [[i frame]|] eqn:Hfind; [|done].
  intros [= <-]. apply list_find_Some in Hfind as (Hi & _ & _).
  exists i, frame, (update_frame frame overrides).
  split_and!; [done|done|]. intros key. apply update_frame_lookup.
Qed.

Lemma apply_overrides_fields_witness :
  ∃ i frame frame',
    [ ({[ "Frame" := PyStr "A"; "X" := PyInt 1 ]} : Frame) ] !! i = Some frame
    ∧ [ ({[ "Frame" := PyStr "A"; "X" := PyInt 5; "Y" := PyInt 2 ]} : Frame) ]
      = <[i := frame']> [ ({[ "Frame" := PyStr "A"; "X" := PyInt 1 ]} : Frame) ].
Proof.
  destruct (apply_overrides_fields
              [ {[ "Frame" := PyStr "A"; "X" := PyInt 1 ]} ]
              {[ "Frame" := PyStr "A"; "X" := PyInt 5; "Y" := PyInt 2 ]}
              [ {[ "Frame" := PyStr "A"; "X" := PyInt 5; "Y" := PyInt 2 ]} ])
    as (i & frame & frame' & Hi & Hframes & _).
  - vm_compute. reflexivity.
  - by exists i, frame, frame'.
Defined.

(** Overrides that hold the ["Frame"] key only change no frame. *)
Theorem apply_overrides_frame_only frames target_name :
  (apply_overrides frames {[ "Frame" := target_name ]}).1 = frames.
Proof.
  rewrite apply_overrides_cases, lookup_singleton_eq.
  destruct (truthy target_name); [|done].
  destruct (list_find _ frames) as [[i frame]|] eqn:Hfind; [|done].
  apply list_find_Some in Hfind as (Hi & _ & _). simpl.
  rewrite update_frame_union, delete_singleton_eq, (left_id_L ∅ (∪)).
  by apply list_insert_id.
Qed.

(** ** The table of [print_frame_summary] *)

(** The columns after the first stand for the keys of all frames other
    than ["Frame"], each key once, in ascending order. *)
Theorem summary_keys_spec frames :
  StronglySorted String.le (summary_keys frames)
  ∧ NoDup (summary_keys frames)
  ∧ ∀ key,
      key ∈ summary_keys frames
      ↔ key ≠ "Frame" ∧ ∃ frame, frame ∈ frames ∧ is_Some (frame !! key).
Proof.
  unfold summary_keys. split_and!.
  - apply StronglySorted_merge_sort; apply _.
  - rewrite merge_sort_Permutation. apply NoDup_elements.
  - intros key. rewrite merge_sort_Permutation, elem_of_elements.
    rewrite elem_of_difference, elem_of_union_list, not_elem_of_singleton.
    split.
    + intros [(X & HX & Hkey) Hne]. split; [done|].
      revert HX. rewrite list_elem_of_fmap. intros (frame & -> & Hframe).
      exists frame. split; [done|]. by apply elem_of_dom.
    + intros [Hne (frame & Hframe & Hkey)]. split; [|done].
      exists (dom frame). split; [|by apply elem_of_dom].
      apply list_elem_of_fmap. by exists frame.
Qed.

Lemma length_repeat_char c n : String.length (repeat_char c n) = n.
Proof. induction n; simpl; congruence. Qed.

Lemma length_ljust s width :
  String.length (ljust s width) = (String.length s `max` width)%nat.
Proof. unfold ljust. rewrite str_length_app, length_repeat_char. lia. Qed.

Lemma nth_fmap_seq {A} (f : nat → A) n i d :
  (i < n)%nat → nth i (f <$> seq 0 n) d = f i.
Proof.
  intros Hi. by rewrite nth_lookup, list_lookup_fmap, lookup_seq_lt.
Qed.

Lemma col_width_le table row i :
  row ∈ table → (String.length (nth i row "") ≤ col_width table i)%nat.
Proof.
  intros Hrow. apply max_list_elem_of_le, list_elem_of_fmap. by exists row.
Qed.

(** The width of a column is the length of its longest cell: no cell is
    longer, and one is as long. *)
Theorem col_width_longest table i :
  table ≠ [] →
  (∀ row, row ∈ table →
          (String.length (nth i row "") ≤ col_width table i)%nat)
  ∧ ∃ row, row ∈ table ∧ col_width table i = String.length (nth i row "").
Proof.
  intros Hne. split; [intros row; apply col_width_le|].
  unfold col_width.
  pose proof (max_list_elem_of
                ((λ row, String.length (nth i row "")) <$> table)) as Hmax.
  rewrite list_elem_of_fmap in Hmax.
  destruct Hmax as (row & Hrow & Hin); [by destruct table|]. by exists row.
Qed.

Lemma col_width_longest_witness :
  ∃ row, row ∈ [["Frame"; "X"]; ["Minimap"; "12"]; ["A"; "-1.5"]]
         ∧ col_width [["Frame"; "X"]; ["Minimap"; "12"]; ["A"; "-1.5"]] 1
           = String.length (nth 1 row "").
Proof.
  by apply (col_width_longest
              [["Frame"; "X"]; ["Minimap"; "12"]; ["A"; "-1.5"]]).
Defined.

Lemma padded_cells_lengths table n row :
  row ∈ table → length row = n →
  String.length
    <$> ((λ i, ljust (nth i row "")
                     (nth i (col_width table <$> seq 0 n) 0%nat))
           <$> seq 0 (length row))
  = col_width table <$> seq 0 n.
Proof.
  intros Hrow ->. rewrite <-list_fmap_compose. apply list_fmap_ext.
  intros i j Hj. apply lookup_seq in Hj as [-> Hi]. simpl.
  rewrite length_ljust, nth_fmap_seq by done.
  pose proof (col_width_le table row i Hrow). lia.
Qed.

Lemma rule_cells_lengths (widths : list nat) :
  String.length <$> (repeat_char "-" <$> widths) = widths.
Proof.
  induction widths as [|w widths IH]; [done|].
  rewrite !fmap_cons, IH. by rewrite length_repeat_char.
Qed.

(** The table is aligned: there is one width for each column, ["Frame"]
    and the keys, and every printed line, the header, the rule and one row
    for each frame, consists of cells of these widths with a separator of
    three characters between them. *)
Theorem print_frame_summary_aligned frames :
  ∃ widths : list nat,
    length widths = S (length (summary_keys frames))
    ∧ length (print_frame_summary frames) = S (S (length frames))
    ∧ Forall (λ line,
                ∃ sep cells,
                  (sep = " | " ∨ sep = "-|-")
                  ∧ line = join sep cells
                  ∧ String.length <$> cells = widths)
             (print_frame_summary frames).
Proof.
  unfold print_frame_summary.
  set (keys := summary_keys frames). set (header := "Frame" :: keys).
  set (rows := summary_row keys <$> frames).
  set (table := header :: rows).
  exists (col_width table <$> seq 0 (length header)).
  split_and!.
  - by rewrite length_fmap, length_seq.
  - subst rows. by rewrite !length_cons, !length_fmap.
  - constructor; [|constructor].
    + exists " | ", ((λ i, ljust (nth i header "")
                             (nth i (col_width table
                                       <$> seq 0 (length header)) 0%nat))
                       <$> seq 0 (length header)).
      split_and!; [by left|done|].
      apply padded_cells_lengths; [apply list_elem_of_here|done].
    + eexists "-|-", _. split_and!; [by right|done|].
      apply rule_cells_lengths.
    + apply Forall_fmap, Forall_forall. intros row Hrow.
      eexists " | ", _. split_and!; [by left|reflexivity|].
      apply padded_cells_lengths.
      * by apply list_elem_of_further.
      * subst rows. apply list_elem_of_fmap in Hrow as (frame & -> & _).
        subst header. simpl. by rewrite length_fmap.
Qed.

(** ** Blank lines *)

Lemma split_lines_app_lf text1 text2 :
  split_lines (text1 +:+ String LF text2)
  = split_lines text1 ++ split_lines text2.
Proof.
  induction text1 as [|c r IH]; [done|].
  rewrite str_app_cons. simpl. rewrite IH.
  destruct (is_newline c); [done|].
  pose proof (split_lines_ne r) as Hne.
  by destruct (split_lines r).
Qed.

Lemma read_lines_app_lf text1 text2 :
  read_lines (text1 +:+ String LF text2)
  = read_lines text1 ++ read_lines text2.
Proof.
  unfold read_lines. by rewrite split_lines_app_lf, fmap_app, filter_app.
Qed.

Lemma get_frames_read_lines text1 text2 :
  read_lines text1 = read_lines text2 → get_frames text1 = get_frames text2.
Proof. unfold get_frames. by intros ->. Qed.

Lemma read_lines_trailing_newline text :
  read_lines (text +:+ String LF "") = read_lines text.
Proof.
  rewrite read_lines_app_lf.
  change (read_lines "") with (@nil string). by rewrite app_nil_r.
Qed.

(** A line break at the end of the text changes nothing: what [main]
    writes, the serialized frames and a line break, is read as the
    serialized frames are. *)
Theorem get_frames_trailing_newline text :
  get_frames (text +:+ String LF "") = get_frames text.
Proof. apply get_frames_read_lines, read_lines_trailing_newline. Qed.

(** A line of white space only is skipped wherever it stands, also within
    a group of seven lines. *)
Theorem get_frames_blank_line text1 blank text2 :
  str_forall is_space blank = true →
  get_frames (text1 +:+ String LF (blank +:+ String LF text2))
  = get_frames (text1 +:+ String LF text2).
Proof.
  intros Hblank. apply get_frames_read_lines.
  rewrite !read_lines_app_lf.
  by rewrite (proj2 (read_lines_nil blank) Hblank).
Qed.

Lemma get_frames_blank_line_witness :
  get_frames ("v1" +:+ String LF ("   " +:+ String LF "Frame: A"))
  = get_frames ("v1" +:+ String LF "Frame: A").
Proof. apply get_frames_blank_line. reflexivity. Defined.

(** ** The whole run *)

(** The file is written only after everything else went well: the path
    names a file called layout-local.txt, [--set] was given, every token
    was accepted, the ["Frame"] value is there and true, and a frame of the
    file matches it.  What is written is the serialized frames and a line
    break. *)
Theorem main_writes_only_if path is_file name text set content :
  main path is_file name text set = Some (Written content) →
  is_file = true ∧ name = "layout-local.txt"
  ∧ ∃ pairs overrides target_name frames version_header frames',
      set = Some pairs
      ∧ parse_overrides pairs = inr overrides
      ∧ overrides !! "Frame" = Some target_name
      ∧ truthy target_name = true
      ∧ get_frames text = Some (frames, version_header)
      ∧ Exists (λ frame, names_frame target_name frame = true) frames
      ∧ apply_overrides frames overrides = (frames', None)
      ∧ content = serialize_frames frames' version_header +:+ String LF "".
Proof.
  unfold main. destruct is_file; [|done]. simpl.
  case_bool_decide as Hname; [|done].
  destruct (get_frames text) as [[frames version_header]|]; [|done]. simpl.
  destruct set as [[|token pairs]|]; [done| |done].
  destruct (parse_overrides (token :: pairs)) as [exit|overrides] eqn:Hparse;
    [done|].
  destruct (apply_overrides frames overrides) as [frames' [exit|]] eqn:Happly;
    [done|].
  intros [= <-]. split_and!; [done..|].
  exists (token :: pairs), overrides.
  pose proof Happly as Hcases. rewrite apply_overrides_cases in Hcases.
  destruct (overrides !! "Frame") as [target_name|] eqn:Htarget; [|done].
  destruct (truthy target_name) eqn:Htruthy; [|done].
  destruct (list_find _ frames) as [[i frame]|] eqn:Hfind; [|done].
  apply list_find_Some in Hfind as (Hi & Hframe & _).
  exists target_name, frames, version_header, frames'.
  split_and!; [done..| |done|done].
  apply Exists_exists. exists frame.
  split; [by eapply list_elem_of_lookup_2|done].
Qed.

Lemma main_writes_only_if_witness :
  ∃ pairs overrides target_name frames version_header frames',
    Some ["FrameLevel=3"; "frame=A"] = Some pairs
    ∧ parse_overrides pairs = inr overrides
    ∧ overrides !! "Frame" = Some target_name
    ∧ truthy target_name = true
    ∧ get_frames
        (join (String LF "")
           ["v1"; "Frame: A"; "X: 1"; "Y: 2"; "W: 3"; "H: 4"; "Anchor: TOP";
            "FrameLevel: 2"])
      = Some (frames, version_header)
    ∧ Exists (λ frame, names_frame target_name frame = true) frames
    ∧ apply_overrides frames overrides = (frames', None)
    ∧ join (String LF "")
        ["v1"; "Frame: A"; "Anchor: TOP"; "FrameLevel: 3"; "H: 4"; "W: 3";
         "X: 1"; "Y: 2"; ""]
      = serialize_frames frames' version_header +:+ String LF "".
Proof.
  apply (main_writes_only_if "wow/layout-local.txt" true "layout-local.txt").
  vm_compute. reflexivity.
Defined.


Lemma get_frames_serialize frames version_header :
  version_header ≠ "" → wf_text version_header →
  Forall (λ frame, map_Forall (λ key v, wf_key key ∧ wf_value v) frame
                   ∧ full_frame frame) frames →
  get_frames (serialize_frames frames version_header)
  = Some (frames, version_header).
Proof.
  intros Hne Hh Hframes.
  destruct (read_back_frames frames Hframes) as (Hnl & Hrest & Hblocks).
  rewrite get_frames_blocks. unfold serialize_frames, output_lines.
  rewrite read_lines_join.
  - rewrite fmap_cons, (wf_text_strip_id _ Hh).
    rewrite filter_cons_True by done. rewrite filter_all by done.
    by rewrite Hblocks.
  - constructor; [|done]. by destruct Hh as (_ & _ & ?).
Qed.

Lemma VALID_KEYS_wf key : key ∈ VALID_KEYS → wf_key key.
Proof.
  unfold VALID_KEYS. rewrite !elem_of_cons, elem_of_nil.
  intros [->|[->|[->|[->|[->|[->|[->|[]]]]]]]]; by repeat split.
Qed.

Lemma parse_overrides_keys pairs overrides key :
  parse_overrides pairs = inr overrides →
  is_Some (overrides !! key) → key ∈ VALID_KEYS.
Proof.
  intros Hparse [value Hkey].
  pose proof (parse_overrides_loop_spec pairs ∅) as Hspec.
  unfold parse_overrides in Hparse. rewrite Hparse in Hspec.
  destruct Hspec as (_ & Hkeys & _).
  by destruct (Hkeys key value Hkey) as [?|[? _]].
Qed.

(** Running [main] with the same [--set] on the file it wrote writes the
    same text again, when the frames it wrote each hold a ["Frame"] value
    and six more fields and every value is read back from its printed
    form. *)
Theorem main_set_twice path text pairs frames version_header overrides frames' :
  get_frames text = Some (frames, version_header) →
  parse_overrides pairs = inr overrides →
  apply_overrides frames overrides = (frames', None) →
  Forall full_frame frames' →
  Forall (map_Forall (λ _ v, wf_value v)) frames' →
  ∃ content,
    main path true "layout-local.txt" text (Some pairs)
    = Some (Written content)
    ∧ get_frames content = Some (frames', version_header)
    ∧ main path true "layout-local.txt" content (Some pairs)
      = Some (Written content).
Proof.
  intros Hget Hparse Happly Hfull Hvalues.
  exists (serialize_frames frames' version_header +:+ String LF "").
  assert (pairs ≠ []) as Hpairs.
  { intros ->. injection Hparse as <-. by vm_compute in Happly. }
  assert (∀ text', get_frames text' = Some (frames, version_header) ∨
                   get_frames text' = Some (frames', version_header) →
            (∀ fs, get_frames text' = Some (fs, version_header) →
                   apply_overrides fs overrides = (frames', None)) →
            main path true "layout-local.txt" text' (Some pairs)
            = Some (Written (serialize_frames frames' version_header
                             +:+ String LF ""))) as Hmain.
  { intros text' Hget' Happly'. unfold main. simpl.
    destruct pairs as [|token pairs]; [done|]. rewrite Hparse.
    destruct Hget' as [Hget'|Hget']; rewrite Hget'; simpl;
      by rewrite (Happly' _ Hget'). }
  destruct (get_frames_wf _ _ _ Hget) as [Hok Hheader].
  pose proof Happly as Hcases. rewrite apply_overrides_cases in Hcases.
  destruct (overrides !! "Frame") as [target_name|] eqn:Htarget; [|done].
  destruct (truthy target_name) eqn:Htruthy; [|done].
  destruct (list_find _ frames) as [[i frame]|] eqn:Hfind; [|done].
  injection Hcases as <-.
  apply list_find_Some in Hfind as (Hi & Hframe & _).
  assert (get_frames (serialize_frames
                        (<[i := update_frame frame overrides]> frames)
                        version_header +:+ String LF "")
          = Some (<[i := update_frame frame overrides]> frames,
                  version_header)) as Hback.
  { rewrite (get_frames_read_lines _ _ (read_lines_trailing_newline _)).
    destruct Hheader as [[_ ->]|[Hne Hh]]; [done|].
    apply get_frames_serialize; [done..|].
    apply Forall_forall. intros frame' Hframe'.
    rewrite Forall_forall in Hfull, Hvalues.
    split; [|by apply Hfull].
    intros key v Hkv. split; [|by apply (Hvalues frame' Hframe' key v)].
    apply list_elem_of_lookup in Hframe' as [j Hj].
    destruct (decide (j = i)) as [->|Hji].
    - rewrite list_lookup_insert_eq in Hj by by eapply lookup_lt_Some.
      injection Hj as <-. rewrite update_frame_lookup in Hkv.
      rewrite Forall_forall in Hok.
      assert (∀ v', frame !! key = Some v' → wf_key key) as Hold.
      { intros v' Hv'. eapply (Hok frame); [|exact Hv'].
        by eapply list_elem_of_lookup_2. }
      case_decide; [by eapply Hold|].
      destruct (overrides !! key) eqn:Hkey; [|by eapply Hold].
      eapply VALID_KEYS_wf, parse_overrides_keys; [exact Hparse|by eexists].
    - rewrite list_lookup_insert_ne in Hj by done.
      rewrite Forall_forall in Hok. eapply (Hok frame'); [|exact Hkv].
      by eapply list_elem_of_lookup_2. }
  split_and!.
  - apply Hmain; [by left|]. intros fs Hfs. rewrite Hget in Hfs.
    by injection Hfs as <-.
  - exact Hback.
  - apply Hmain; [by right|]. intros fs Hfs. rewrite Hback in Hfs.
    injection Hfs as <-. unfold apply_overrides. rewrite Htarget, Htruthy.
    unfold apply_overrides in Happly. rewrite Htarget, Htruthy in Happly.
    destruct (apply_loop frames target_name overrides) as [frames''|] eqn:Hloop;
      [|done].
    injection Happly as ->. by rewrite (apply_loop_idemp _ _ _ _ Hloop).
Qed.

Lemma main_set_twice_witness :
  ∃ content,
    main "wow/layout-local.txt" true "layout-local.txt"
      (join (String LF "")
         ["v1"; "Frame: A"; "X: 1"; "Y: 2"; "W: 3"; "H: 4"; "Anchor: TOP";
          "FrameLevel: 2"])
      (Some ["x=5"; "Frame=A"])
    = Some (Written content)
    ∧ get_frames content
      = Some ([list_to_map
                 [("Frame", PyStr "A"); ("X", PyInt 5); ("Y", PyInt 2);
                  ("W", PyInt 3); ("H", PyInt 4); ("Anchor", PyStr "TOP");
                  ("FrameLevel", PyInt 2)]], "v1")
    ∧ main "wow/layout-local.txt" true "layout-local.txt" content
        (Some ["x=5"; "Frame=A"])
      = Some (Written content).
Proof.
  apply (main_set_twice _ _ _
           [list_to_map
              [("Frame", PyStr "A"); ("X", PyInt 1); ("Y", PyInt 2);
               ("W", PyInt 3); ("H", PyInt 4); ("Anchor", PyStr "TOP");
               ("FrameLevel", PyInt 2)]]
           "v1"
           (list_to_map [("X", PyInt 5); ("Frame", PyStr "A")])).
  - vm_compute. reflexivity.
  - vm_compute. reflexivity.
  - vm_compute. reflexivity.
  - repeat constructor. by eexists.
  - constructor; [|constructor].
    repeat (apply map_Forall_insert_2; [by vm_compute|]).
    apply map_Forall_empty.
Defined.

(** A file with fewer than eight lines that hold more than white space has
    no frame: with [--set], [main] exits, whatever the tokens are, and
    writes nothing. *)
Theorem main_short_file path text pairs :
  (length (read_lines text) < 8)%nat →
  pairs ≠ [] →
  ∃ exit,
    main path true "layout-local.txt" text (Some pairs) = Some (Exited exit).
Proof.
  intros Hlen Hpairs. unfold main. simpl. rewrite get_frames_blocks.
  assert (∃ version_header,
            match read_lines text with
            | [] => ([], "")
            | version_header :: rest =>
                (blocks (length rest / 7) rest, version_header)
            end = ([], version_header)) as [version_header ->].
  { destruct (read_lines text) as [|version_header rest]; [by eexists|].
    exists version_header. simpl in Hlen.
    by rewrite Nat.div_small by lia. }
  simpl. destruct pairs as [|token pairs]; [done|].
  destruct (parse_overrides (token :: pairs)) as [exit|overrides];
    [by eexists|].
  unfold apply_overrides. destruct (overrides !! "Frame") as [t|];
    [|by eexists].
  destruct (truthy t); by eexists.
Qed.

Lemma main_short_file_witness :
  ∃ exit,
    main "layout-local.txt" true "layout-local.txt"
      (join (String LF "") ["v1"; "Frame: A"; "X: 1"; "Y: 2"])
      (Some ["Frame=A"; "X=5"])
    = Some (Exited exit).
Proof. apply main_short_file; [vm_compute; lia|done]. Defined.

Lemma length_print_frame_summary frames :
  length (print_frame_summary frames) = S (S (length frames)).
Proof. unfold print_frame_summary. by rewrite !length_cons, !length_fmap. Qed.

(** Without [--set], [main] always prints the table and nothing else
    happens: a header, a rule, and one row for each full group of seven
    lines after the first line that holds more than white space. *)
Theorem main_without_set path text :
  ∃ lines,
    main path true "layout-local.txt" text None = Some (Printed lines)
    ∧ length lines = (2 + (length (read_lines text) - 1) / 7)%nat.
Proof.
  unfold main. simpl. rewrite get_frames_blocks.
  destruct (read_lines text) as [|version_header rest]; simpl.
  - by eexists.
  - eexists. split; [done|].
    rewrite length_print_frame_summary, length_blocks.
    by rewrite Nat.sub_0_r.
Qed.

(** ** Repeated keys *)

(** Within a group of lines a key that comes again takes the value of the
    later line, and the frame has one field less than the group has
    lines. *)
Theorem add_line_last_wins frame_data line1 line2 key value1 value2 :
  parse_kv_line line1 = Some (key, value1) →
  parse_kv_line line2 = Some (key, value2) →
  add_line (add_line frame_data line1) line2 = add_line frame_data line2.
Proof.
  intros Hline1 Hline2. unfold add_line. rewrite Hline1, Hline2.
  case_decide; [done|]. apply insert_insert_eq.
Qed.

Lemma add_line_last_wins_witness :
  add_line (add_line ∅ "X: 1") " X :2" = add_line ∅ " X :2".
Proof.
  by apply (add_line_last_wins ∅ "X: 1" " X :2" "X" (PyInt 1) (PyInt 2)).
Defined.

(** Two accepted tokens for different keys can change places: the
    overrides are the same. *)
Theorem parse_overrides_swap before token1 token2 after :
  token_exit token1 = None →
  token_exit token2 = None →
  lower (token_key token1) ≠ lower (token_key token2) →
  parse_overrides (before ++ token1 :: token2 :: after)
  = parse_overrides (before ++ token2 :: token1 :: after).
Proof.
  intros Htoken1 Htoken2 Hne. unfold parse_overrides.
  rewrite !parse_overrides_loop_app.
  destruct (parse_overrides_loop before ∅) as [exit|overrides]; [done|].
  rewrite !parse_overrides_loop_step, Htoken1, Htoken2.
  pose proof Htoken1 as Htoken1'. pose proof Htoken2 as Htoken2'.
  unfold token_exit in Htoken1, Htoken2.
  destruct (contains "=" token1); [|done].
  destruct (contains "=" token2); [|done].
  destruct (decide (lower (token_key token1) ∈ VALID_KEYS_LOWER)) as [Hin1|];
    [|done].
  destruct (decide (lower (token_key token2) ∈ VALID_KEYS_LOWER)) as [Hin2|];
    [|done].
  destruct (proper_key_found _ Hin1) as (i1 & key1 & Hfind1 & _ & Hlower1).
  destruct (proper_key_found _ Hin2) as (i2 & key2 & Hfind2 & _ & Hlower2).
  rewrite Hfind1, Hfind2, !parse_overrides_loop_step, Htoken1', Htoken2'.
  rewrite Hfind1, Hfind2, insert_insert_ne; [done|]. congruence.
Qed.

Lemma parse_overrides_swap_witness :
  parse_overrides (["Frame=A"] ++ ["X=1"; "y = 2"; "x=3"])
  = parse_overrides (["Frame=A"] ++ ["y = 2"; "X=1"; "x=3"]).
Proof.
  apply (parse_overrides_swap ["Frame=A"] "X=1" "y = 2" ["x=3"]);
    by vm_compute.
Defined.

Lemma apply_overrides_exit_unchanged_witness :
  (apply_overrides [ {[ "Frame" := PyStr "A" ]} ]
                   {[ "Frame" := PyStr "B"; "X" := PyInt 1 ]}).1
  = [ {[ "Frame" := PyStr "A" ]} ].
Proof.
  apply (apply_overrides_exit_unchanged _ _ (FrameNotFound (PyStr "B"))).
  vm_compute. reflexivity.
Defined.
